(** * gtransmission: magnet links, URNs and number ranges

    A shallow embedding of the Go package [transmission]
    (files num_range.go, urn.go, hash.go and magnet_link.go) together with
    the parts of the Go standard library the package calls
    (strings, strconv, net/url, encoding/hex).

    Go strings are byte sequences: they are modelled by [string], whose
    characters are the 256 values of [ascii].  Go's [int] is taken to be
    64 bits wide and is modelled by [Z] with the range checks of strconv
    written out.  A Go function returning [(T, error)] by value is a pair
    [T * option E]; one returning a pointer and an error is a [result]. *)

From Stdlib Require Import ZArith Lia String Ascii.
From Stdlib Require Import DecimalString DecimalZ DecimalPos.
From stdpp Require Import gmap strings list fin_maps.

Local Open Scope string_scope.
Local Open Scope list_scope.

(** ** Results of pointer-returning functions *)

Inductive result (E A : Type) : Type :=
| Ok (a : A)
| Fail (e : E).
Arguments Ok {E A} a.
Arguments Fail {E A} e.

Definition bind {E A B} (r : result E A) (k : A -> result E B) : result E B :=
  match r with
  | Ok a => k a
  | Fail e => Fail e
  end.

(** ** Bytes *)

Definition between (lo hi c : ascii) : bool :=
  (N_of_ascii lo <=? N_of_ascii c)%N && (N_of_ascii c <=? N_of_ascii hi)%N.

Definition isDigit (c : ascii) : bool := between "0" "9" c.

Fixpoint string_map (f : ascii -> ascii) (s : string) : string :=
  match s with
  | EmptyString => EmptyString
  | String c r => String (f c) (string_map f r)
  end.

Fixpoint string_forallb (p : ascii -> bool) (s : string) : bool :=
  match s with
  | EmptyString => true
  | String c r => p c && string_forallb p r
  end.

Fixpoint string_count (c : ascii) (s : string) : nat :=
  match s with
  | EmptyString => 0
  | String x r => (if Ascii.eqb x c then 1 else 0) + string_count c r
  end.

(** ** Package strings *)

Module strings.

(** [strings.Split(s, sep)] for a separator of one byte, which is how
    every call site of the package uses it.  The result is never empty:
    splitting the empty string gives one empty segment. *)
Fixpoint Split (s : string) (sep : ascii) : list string :=
  match s with
  | EmptyString => [EmptyString]
  | String c r =>
      if Ascii.eqb c sep then EmptyString :: Split r sep
      else match Split r sep with
           | [] => [String c EmptyString]
           | x :: xs => String c x :: xs
           end
  end.

(** [strings.Cut(s, sep)] for a separator of one byte. *)
Fixpoint Cut (s : string) (sep : ascii) : string * string * bool :=
  match s with
  | EmptyString => (EmptyString, EmptyString, false)
  | String c r =>
      if Ascii.eqb c sep then (EmptyString, r, true)
      else let '(b, a, f) := Cut r sep in (String c b, a, f)
  end.

Definition Contains (s : string) (c : ascii) : bool :=
  negb (string_forallb (fun x => negb (Ascii.eqb x c)) s).

Definition HasPrefix (s p : string) : bool := String.prefix p s.

Definition lowerByte (c : ascii) : ascii :=
  if between "A" "Z" c then ascii_of_N (N_of_ascii c + 32) else c.

Definition isASCII (s : string) : bool :=
  string_forallb (fun c => (N_of_ascii c <? 128)%N) s.

Section ToLower.
(** [strings.ToLower] lowers an all-ASCII string byte by byte; a string
    with a byte of 128 or more goes through
    [strings.Map(unicode.ToLower, s)], whose Unicode tables are not
    part of the package: that path is the parameter [lowerNonASCII]. *)
Variable lowerNonASCII : string -> string.

Definition ToLower (s : string) : string :=
  if isASCII s then string_map lowerByte s else lowerNonASCII s.
End ToLower.

End strings.

(** ** Package strconv *)

Module strconv.

Inductive ErrKind := ErrSyntax | ErrRange.

(** [*strconv.NumError]: the failing function, the input, the cause. *)
Record NumError := { Func : string; Num : string; Err : ErrKind }.

Definition intSize : Z := 64.
Definition maxUint64 : Z := 2 ^ 64 - 1.

Definition digitVal (c : ascii) : Z := Z.of_N (N_of_ascii c) - 48.

(** The loop of [ParseUint(s, 10, 64)]: [n] is the uint64 accumulated so
    far.  A byte that is not a decimal digit is a syntax error (a letter
    has a value of ten or more, an underscore is only legal in base 0);
    overflow of the accumulator is a range error. *)
Fixpoint parseUintLoop (s : string) (n : Z) : Z * option ErrKind :=
  match s with
  | EmptyString => (n, None)
  | String c r =>
      if isDigit c then
        if (maxUint64 / 10 + 1 <=? n)%Z then (maxUint64, Some ErrRange)
        else
          let n10 := (n * 10)%Z in
          let n1 := ((n10 + digitVal c) mod 2 ^ 64)%Z in
          if (n1 <? n10)%Z || (maxUint64 <? n1)%Z
          then (maxUint64, Some ErrRange)
          else parseUintLoop r n1
      else (0%Z, Some ErrSyntax)
  end.

Definition ParseUint (s : string) : Z * option ErrKind :=
  match s with
  | EmptyString => (0%Z, Some ErrSyntax)
  | _ => parseUintLoop s 0
  end.

(** [ParseInt(s, 10, 0)]: optional sign, then [ParseUint], then the
    range check against [1 << 63]. *)
Definition ParseInt (s : string) : Z * option ErrKind :=
  match s with
  | EmptyString => (0%Z, Some ErrSyntax)
  | String c r =>
      let neg := Ascii.eqb c "-" in
      let body := if Ascii.eqb c "+" || neg then r else s in
      match ParseUint body with
      | (_, Some ErrSyntax) => (0%Z, Some ErrSyntax)
      | (un, _) =>
          let cutoff := (2 ^ (intSize - 1))%Z in
          if negb neg && (cutoff <=? un)%Z then ((cutoff - 1)%Z, Some ErrRange)
          else if neg && (cutoff <? un)%Z then ((- cutoff)%Z, Some ErrRange)
          else ((if neg then - un else un)%Z, None)
      end
  end.

(** [strconv.Atoi].  The fast path Go takes for short inputs computes the
    same value and the same error kind as [ParseInt(s, 10, 0)], so only
    the latter is written out. *)
Definition Atoi (s : string) : Z * option NumError :=
  match ParseInt s with
  | (n, None) => (n, None)
  | (n, Some k) => (n, Some {| Func := "Atoi"; Num := s; Err := k |})
  end.

(** [strconv.Itoa]: the decimal rendering of an integer. *)
Definition Itoa (n : Z) : string := NilZero.string_of_int (Z.to_int n).

End strconv.

(** ** num_range.go *)

Record NumRange := {
  Start : Z;
  End_ : Z;
  IncludeStart : bool;
  IncludeEnd : bool
}.

Inductive NumRangeError :=
| NumRangeAtoi (e : strconv.NumError)
| NumRangeMalformed.

Definition zeroNumRange : NumRange :=
  {| Start := 0; End_ := 0; IncludeStart := false; IncludeEnd := false |}.

Definition NewSingleNumRange (num : Z) : NumRange :=
  {| Start := num; End_ := num; IncludeStart := true; IncludeEnd := true |}.

(** [ParseNumRangeFromString] has named results [(r, err)]: what it returns
    is the pair of their values at the [return] that is reached.  In the
    two-segment branch no [return] follows the second bound, so control
    reaches the assignment of the malformed-string error below the
    [if]/[else if]. *)
Definition ParseNumRangeFromString (s : string) : NumRange * option NumRangeError :=
  let r := zeroNumRange in
  match strings.Split s "-" with
  | [_] =>
      match strconv.Atoi s with
      | (_, Some e) => (r, Some (NumRangeAtoi e))
      | (num, None) =>
          ({| Start := num; End_ := num; IncludeStart := true; IncludeEnd := true |},
           None)
      end
  | [s0; s1] =>
      match strconv.Atoi s0 with
      | (_, Some e) => (r, Some (NumRangeAtoi e))
      | (num, None) =>
          let r := {| Start := num; End_ := End_ r;
                      IncludeStart := true; IncludeEnd := IncludeEnd r |} in
          match strconv.Atoi s1 with
          | (_, Some e) => (r, Some (NumRangeAtoi e))
          | (num, None) =>
              let r := {| Start := Start r; End_ := num;
                          IncludeStart := IncludeStart r; IncludeEnd := true |} in
              (r, Some NumRangeMalformed)
          end
      end
  | _ => (r, Some NumRangeMalformed)
  end.

(** ** hash.go *)

Definition HashSHA1 : string := "sha1".
Definition HashSHA256 : string := "sha256".

Record HashValue := { Type_ : string; Value : list Byte.byte }.

Definition zeroHashValue : HashValue := {| Type_ := EmptyString; Value := [] |}.

(** ** Package encoding/hex *)

Module hex.

Inductive Error :=
| InvalidByteError (b : ascii)
| ErrLength.

(** [reverseHexTable]: the value of a hexadecimal digit, if it is one. *)
Definition fromHexChar (c : ascii) : option N :=
  if between "0" "9" c then Some (N_of_ascii c - 48)%N
  else if between "a" "f" c then Some (N_of_ascii c - 97 + 10)%N
  else if between "A" "F" c then Some (N_of_ascii c - 65 + 10)%N
  else None.

Definition mkByte (hi lo : N) : Byte.byte :=
  byte_of_ascii (ascii_of_N (hi * 16 + lo)).

(** [hex.DecodeString]: the bytes decoded before the first error, and
    that error.  A bad byte is reported before an odd length. *)
Fixpoint DecodeString (s : string) : list Byte.byte * option Error :=
  match s with
  | EmptyString => ([], None)
  | String p EmptyString =>
      match fromHexChar p with
      | None => ([], Some (InvalidByteError p))
      | Some _ => ([], Some ErrLength)
      end
  | String p (String q r) =>
      match fromHexChar p, fromHexChar q with
      | None, _ => ([], Some (InvalidByteError p))
      | Some _, None => ([], Some (InvalidByteError q))
      | Some a, Some b =>
          let '(bs, e) := DecodeString r in (mkByte a b :: bs, e)
      end
  end.

End hex.

(** ** Package encoding/base32 *)

Module base32.
(** [base32.CorruptInputError]: the offset of the offending byte. *)
Inductive Error := CorruptInputError (offset : Z).
End base32.

(** ** Package net/url

    [Parse], [URL.Query] and [QueryUnescape] as of Go 1.17 and later
    (the ampersand is the only separator of a query string).  Of the parsed
    URL only the scheme and the raw query are kept, the two fields the
    package reads; the authority, the path and the fragment are checked
    for the errors they can raise. *)

Module url.

Inductive Cause :=
| ErrControlCharacter
| ErrMissingScheme
| ErrColonInFirstSegment
| EscapeError (s : string)
| InvalidHostError (s : string)
| ErrMissingBracket
| ErrInvalidPort (port : string)
| ErrInvalidUserinfo.

(** [*url.Error] of operation parse. *)
Record Error := { URL_ : string; Cause_ : Cause }.

Inductive encoding :=
| encodePath
| encodeHost
| encodeZone
| encodeUserPassword
| encodeQueryComponent
| encodeFragment.

Definition is_host_mode (m : encoding) : bool :=
  match m with encodeHost | encodeZone => true | _ => false end.

Definition ishex (c : ascii) : bool :=
  match hex.fromHexChar c with Some _ => true | None => false end.

Definition unhex (c : ascii) : N :=
  match hex.fromHexChar c with Some v => v | None => 0%N end.

Definition isAlnum (c : ascii) : bool :=
  between "a" "z" c || between "A" "Z" c || between "0" "9" c.

Definition oneOf (set : string) (c : ascii) : bool := strings.Contains set c.

(** [shouldEscape(c, encodeHost)], the only mode [unescape] asks about. *)
Definition shouldEscapeHost (c : ascii) : bool :=
  if isAlnum c then false
  else if oneOf "!$&'()*+,;=:[]<>" c || Ascii.eqb c (ascii_of_N 34) then false
  else if oneOf "-_.~" c then false
  else true.

Definition take3 (s : string) : string := String.substring 0 3 s.

(** First pass of [unescape]: every percent sign is followed by two
    hexadecimal digits, and host and zone hold only what they may. *)
Fixpoint checkEscapes (s : string) (mode : encoding) : option Cause :=
  match s with
  | EmptyString => None
  | String c r =>
      if Ascii.eqb c "%" then
        match r with
        | String a (String b r') =>
            if negb (ishex a && ishex b) then Some (EscapeError (take3 s))
            else if match mode with encodeHost => true | _ => false end
                    && (unhex a <? 8)%N && negb (String.eqb (take3 s) "%25")
            then Some (EscapeError (take3 s))
            else if match mode with encodeZone => true | _ => false end
                    && negb (String.eqb (take3 s) "%25")
                    && negb (unhex a * 16 + unhex b =? 32)%N
                    && shouldEscapeHost (ascii_of_N (unhex a * 16 + unhex b))
            then Some (EscapeError (take3 s))
            else checkEscapes r' mode
        | _ => Some (EscapeError (take3 s))
        end
      else if is_host_mode mode && (N_of_ascii c <? 128)%N && shouldEscapeHost c
      then Some (InvalidHostError (String c EmptyString))
      else checkEscapes r mode
  end.

(** Second pass of [unescape]: the decoded bytes. *)
Fixpoint decodeEscapes (s : string) (mode : encoding) : string :=
  match s with
  | EmptyString => EmptyString
  | String c r =>
      if Ascii.eqb c "%" then
        match r with
        | String a (String b r') =>
            String (ascii_of_N (unhex a * 16 + unhex b)) (decodeEscapes r' mode)
        | _ => EmptyString
        end
      else if Ascii.eqb c "+" then
        String (match mode with encodeQueryComponent => " "%char | _ => "+"%char end)
               (decodeEscapes r mode)
      else String c (decodeEscapes r mode)
  end.

Definition unescape (s : string) (mode : encoding) : result Cause string :=
  match checkEscapes s mode with
  | Some e => Fail e
  | None => Ok (decodeEscapes s mode)
  end.

Definition QueryUnescape (s : string) : result Cause string :=
  unescape s encodeQueryComponent.

(** [getScheme]: the scheme and the rest, or the whole input as rest when
    there is no valid scheme. *)
Fixpoint getSchemeFrom (i : nat) (s : string) : result Cause (string * string) + unit :=
  match s with
  | EmptyString => inr tt
  | String c r =>
      if between "a" "z" c || between "A" "Z" c then
        match getSchemeFrom (S i) r with
        | inl (Ok (sch, rest)) => inl (Ok (String c sch, rest))
        | other => other
        end
      else if isDigit c || oneOf "+-." c then
        match i with
        | O => inr tt
        | _ => match getSchemeFrom (S i) r with
               | inl (Ok (sch, rest)) => inl (Ok (String c sch, rest))
               | other => other
               end
        end
      else if Ascii.eqb c ":" then
        match i with
        | O => inl (Fail ErrMissingScheme)
        | _ => inl (Ok (EmptyString, r))
        end
      else inr tt
  end.

Definition getScheme (rawURL : string) : result Cause (string * string) :=
  match getSchemeFrom 0 rawURL with
  | inl r => r
  | inr _ => Ok (EmptyString, rawURL)
  end.

Definition stringContainsCTLByte (s : string) : bool :=
  negb (string_forallb
          (fun c => negb ((N_of_ascii c <? 32)%N || (N_of_ascii c =? 127)%N)) s).

(** Split at the last occurrence of a byte: what is before it and what
    is after it. *)
Fixpoint CutLast (s : string) (sep : ascii) : option (string * string) :=
  match s with
  | EmptyString => None
  | String c r =>
      match CutLast r sep with
      | Some (b, a) => Some (String c b, a)
      | None => if Ascii.eqb c sep then Some (EmptyString, r) else None
      end
  end.

Definition validOptionalPort (port : string) : bool :=
  match port with
  | EmptyString => true
  | String c r => Ascii.eqb c ":" && string_forallb isDigit r
  end.

Definition validUserinfo (s : string) : bool :=
  string_forallb (fun c => isAlnum c || oneOf "-._:~!$&'()*+,;=%@" c) s.

Definition errOf {A} (r : result Cause A) : option Cause :=
  match r with Ok _ => None | Fail e => Some e end.

Definition orElse (a b : option Cause) : option Cause :=
  match a with Some e => Some e | None => b end.

(** [parseHost], for the error it may raise. *)
Definition parseHost (host : string) : option Cause :=
  if strings.HasPrefix host "[" then
    match CutLast host "]" with
    | None => Some ErrMissingBracket
    | Some (inner, colonPort) =>
        if negb (validOptionalPort colonPort) then Some (ErrInvalidPort colonPort)
        else
          match String.index 0 "%25" inner with
          | Some zone =>
              orElse (errOf (unescape (String.substring 0 zone inner) encodeHost))
             (orElse (errOf (unescape (String.substring zone (String.length inner - zone) inner)
                                      encodeZone))
                     (errOf (unescape (String "]" colonPort) encodeHost)))
          | None => errOf (unescape host encodeHost)
          end
    end
  else
    match CutLast host ":" with
    | Some (_, port) =>
        if negb (validOptionalPort (String ":" port))
        then Some (ErrInvalidPort (String ":" port))
        else errOf (unescape host encodeHost)
    | None => errOf (unescape host encodeHost)
    end.

(** [parseAuthority], for the error it may raise. *)
Definition parseAuthority (authority : string) : option Cause :=
  match CutLast authority "@" with
  | None => parseHost authority
  | Some (userinfo, host) =>
      orElse (parseHost host)
        (if negb (validUserinfo userinfo) then Some ErrInvalidUserinfo
         else if negb (strings.Contains userinfo ":")
         then errOf (unescape userinfo encodeUserPassword)
         else let '(username, password, _) := strings.Cut userinfo ":" in
              orElse (errOf (unescape username encodeUserPassword))
                     (errOf (unescape password encodeUserPassword)))
  end.

Record URL := { Scheme : string; RawQuery : string }.

Section Parse.
Variable lowerNonASCII : string -> string.

(** [parse(rawURL, false)]. *)
Definition parse (rawURL : string) : result Cause URL :=
  if stringContainsCTLByte rawURL then Fail ErrControlCharacter
  else if String.eqb rawURL "*" then
    Ok {| Scheme := EmptyString; RawQuery := EmptyString |}
  else
    match getScheme rawURL with
    | Fail e => Fail e
    | Ok (scheme, rest) =>
        let scheme := strings.ToLower lowerNonASCII scheme in
        let '(rest, rawQuery, _) := strings.Cut rest "?" in
        let u := {| Scheme := scheme; RawQuery := rawQuery |} in
        if negb (strings.HasPrefix rest "/") && negb (String.eqb scheme EmptyString)
        then Ok u
        else if negb (strings.HasPrefix rest "/")
                && strings.Contains (fst (fst (strings.Cut rest "/"))) ":"
        then Fail ErrColonInFirstSegment
        else
          let hasAuthority :=
            (negb (String.eqb scheme EmptyString)
             || negb (strings.HasPrefix rest "///"))
            && strings.HasPrefix rest "//" in
          let '(authority, path, found) :=
            strings.Cut (String.substring 2 (String.length rest - 2) rest) "/" in
          let path := if hasAuthority
                      then (if found then String "/" path else EmptyString)
                      else rest in
          match (if hasAuthority then parseAuthority authority else None) with
          | Some e => Fail e
          | None =>
              match unescape path encodePath with
              | Fail e => Fail e
              | Ok _ => Ok u
              end
          end
    end.

(** [url.Parse]: the fragment is cut off first and checked last. *)
Definition Parse (rawURL : string) : result Error URL :=
  let '(u, frag, _) := strings.Cut rawURL "#" in
  match parse u with
  | Fail e => Fail {| URL_ := u; Cause_ := e |}
  | Ok url =>
      match unescape frag encodeFragment with
      | Fail e => Fail {| URL_ := rawURL; Cause_ := e |}
      | Ok _ => Ok url
      end
  end.
End Parse.

(** [url.Values], a [map[string][]string]. *)
Abbreviation Values := (gmap string (list string)).

(** [m[key] = append(m[key], vs...)]. *)
Definition appendAt (m : Values) (key : string) (vs : list string) : Values :=
  <[key := default [] (m !! key) ++ vs]> m.

(** [parseQuery]: a pair with a semicolon, an empty pair, or a pair whose
    key or value does not unescape is skipped. *)
Fixpoint parseQuery (pairs : list string) (m : Values) : Values :=
  match pairs with
  | [] => m
  | kv :: rest =>
      if strings.Contains kv ";" || String.eqb kv EmptyString then parseQuery rest m
      else
        let '(k, v, _) := strings.Cut kv "=" in
        match QueryUnescape k, QueryUnescape v with
        | Ok key, Ok value => parseQuery rest (appendAt m key [value])
        | _, _ => parseQuery rest m
        end
  end.

(** [URL.Query]: the error of [ParseQuery] is dropped. *)
Definition Query (u : URL) : Values :=
  parseQuery (strings.Split (RawQuery u) "&") ∅.

End url.

(** ** Loops that return early *)

(** A Go [for _, x := range xs] whose body may [return nil, err]: the state
    is threaded through the elements in order and the first failure ends
    the loop. *)
Fixpoint forEach {E A S : Type} (body : A -> S -> result E S)
    (xs : list A) (s : S) : result E S :=
  match xs with
  | [] => Ok s
  | x :: rest =>
      match body x s with
      | Fail e => Fail e
      | Ok s' => forEach body rest s'
      end
  end.

(** ** urn.go *)

Record Urn := { Nid : string; Nss : string }.

Inductive UrnReason := UrnBare | UrnInvalidScheme.

(** Both errors of [ParseUrn] wrap the sentinel [ErrMalformedUrn]. *)
Inductive UrnError := ErrMalformedUrn (detail : UrnReason).

Definition zeroUrn : Urn := {| Nid := EmptyString; Nss := EmptyString |}.

(** [Urn.String], that is [fmt.Sprintf] of urn, colon, Nid, colon, Nss. *)
Definition Urn_String (u : Urn) : string :=
  "urn:" +:+ Nid u +:+ ":" +:+ Nss u.

(** ** magnet_link.go: data *)

Inductive Sentinel := ErrMalformedMagnetLink | ErrWrongMagnetLinkType.

Inductive DecodeError :=
| HexError (e : hex.Error)
| Base32Error (e : base32.Error).

(** What follows the wrapped sentinel in the message of an error. *)
Inductive Reason :=
| ReasonURL (e : url.Error)
| InvalidScheme
| InvalidXt (e : UrnError)
| InvalidXl (e : strconv.NumError)
| InvalidAs (e : url.Cause)
| InvalidTr (e : url.Cause)
| InvalidSo (e : NumRangeError)
| InvalidExperimental
| UnknownParameters
| BadLength
| CannotDecode (e : DecodeError)
| NoTorrent.

(** [fmt.Errorf] with the verb [%w]: the sentinel that [errors.Is] finds,
    and the rest of the message. *)
Record MagnetError := { wraps : Sentinel; reason : Reason }.

Definition malformed (r : Reason) : MagnetError :=
  {| wraps := ErrMalformedMagnetLink; reason := r |}.

Record MagnetLink := {
  Dn : list string;
  Xt : list Urn;
  Xl : list Z;
  As : list string;
  Xs : list string;
  Kt : list string;
  Mt : list string;
  Tr : list string;
  So : list NumRange;
  Exps : gmap string (list string);
  Unknowns : gmap string (list string)
}.

Definition zeroMagnetLink : MagnetLink :=
  {| Dn := []; Xt := []; Xl := []; As := []; Xs := []; Kt := []; Mt := [];
     Tr := []; So := []; Exps := ∅; Unknowns := ∅ |}.

Definition appendDn (l : MagnetLink) (vs : list string) : MagnetLink :=
  {| Dn := Dn l ++ vs; Xt := Xt l; Xl := Xl l; As := As l; Xs := Xs l;
     Kt := Kt l; Mt := Mt l; Tr := Tr l; So := So l; Exps := Exps l;
     Unknowns := Unknowns l |}.

Definition appendXt (l : MagnetLink) (us : list Urn) : MagnetLink :=
  {| Dn := Dn l; Xt := Xt l ++ us; Xl := Xl l; As := As l; Xs := Xs l;
     Kt := Kt l; Mt := Mt l; Tr := Tr l; So := So l; Exps := Exps l;
     Unknowns := Unknowns l |}.

Definition appendXl (l : MagnetLink) (ns : list Z) : MagnetLink :=
  {| Dn := Dn l; Xt := Xt l; Xl := Xl l ++ ns; As := As l; Xs := Xs l;
     Kt := Kt l; Mt := Mt l; Tr := Tr l; So := So l; Exps := Exps l;
     Unknowns := Unknowns l |}.

Definition appendAs (l : MagnetLink) (vs : list string) : MagnetLink :=
  {| Dn := Dn l; Xt := Xt l; Xl := Xl l; As := As l ++ vs; Xs := Xs l;
     Kt := Kt l; Mt := Mt l; Tr := Tr l; So := So l; Exps := Exps l;
     Unknowns := Unknowns l |}.

Definition appendXs (l : MagnetLink) (vs : list string) : MagnetLink :=
  {| Dn := Dn l; Xt := Xt l; Xl := Xl l; As := As l; Xs := Xs l ++ vs;
     Kt := Kt l; Mt := Mt l; Tr := Tr l; So := So l; Exps := Exps l;
     Unknowns := Unknowns l |}.

Definition appendKt (l : MagnetLink) (vs : list string) : MagnetLink :=
  {| Dn := Dn l; Xt := Xt l; Xl := Xl l; As := As l; Xs := Xs l;
     Kt := Kt l ++ vs; Mt := Mt l; Tr := Tr l; So := So l; Exps := Exps l;
     Unknowns := Unknowns l |}.

Definition appendMt (l : MagnetLink) (vs : list string) : MagnetLink :=
  {| Dn := Dn l; Xt := Xt l; Xl := Xl l; As := As l; Xs := Xs l;
     Kt := Kt l; Mt := Mt l ++ vs; Tr := Tr l; So := So l; Exps := Exps l;
     Unknowns := Unknowns l |}.

Definition appendTr (l : MagnetLink) (vs : list string) : MagnetLink :=
  {| Dn := Dn l; Xt := Xt l; Xl := Xl l; As := As l; Xs := Xs l;
     Kt := Kt l; Mt := Mt l; Tr := Tr l ++ vs; So := So l; Exps := Exps l;
     Unknowns := Unknowns l |}.

Definition appendSo (l : MagnetLink) (rs : list NumRange) : MagnetLink :=
  {| Dn := Dn l; Xt := Xt l; Xl := Xl l; As := As l; Xs := Xs l;
     Kt := Kt l; Mt := Mt l; Tr := Tr l; So := So l ++ rs; Exps := Exps l;
     Unknowns := Unknowns l |}.

Definition appendExps (l : MagnetLink) (key : string) (vs : list string) : MagnetLink :=
  {| Dn := Dn l; Xt := Xt l; Xl := Xl l; As := As l; Xs := Xs l;
     Kt := Kt l; Mt := Mt l; Tr := Tr l; So := So l;
     Exps := url.appendAt (Exps l) key vs; Unknowns := Unknowns l |}.

Definition appendUnknowns (l : MagnetLink) (key : string) (vs : list string) : MagnetLink :=
  {| Dn := Dn l; Xt := Xt l; Xl := Xl l; As := As l; Xs := Xs l;
     Kt := Kt l; Mt := Mt l; Tr := Tr l; So := So l;
     Exps := Exps l; Unknowns := url.appendAt (Unknowns l) key vs |}.

(** [TorrentMagnetLink] embeds a pointer to the link it was made from. *)
Record TorrentMagnetLink := {
  MagnetLink_ : MagnetLink;
  InfoHashs : list HashValue
}.

(** *** Options *)

Record magnetLinkParseOption := { Strict : bool }.

(** A [MagnetLinkParseOption] is its method [set], here the new value of
    the option record it is given. *)
Definition MagnetLinkParseOption : Type :=
  magnetLinkParseOption -> magnetLinkParseOption.

Definition WithMagnetLinkParseStrictOption (strict : bool) : MagnetLinkParseOption :=
  fun _ => {| Strict := strict |}.

(** The variadic [opts]: a [nil] interface value is [None] and is skipped. *)
Definition applyOptions (opts : list (option MagnetLinkParseOption)) : magnetLinkParseOption :=
  fold_left (fun o opt => match opt with Some set => set o | None => o end)
            opts {| Strict := false |}.

(** ** Instances of what the package leaves open

    Used to run the functions on inputs for which the open parts are not
    reached: ASCII strings and hashes written in hexadecimal. *)

Module Sample.

(** Strings that are not all ASCII are left as they are. *)
Definition lowerNonASCII (s : string) : string := s.

(** A decoder that rejects its input at offset zero. *)
Definition base32DecodeString (s : string) : list Byte.byte * option base32.Error :=
  ([], Some (base32.CorruptInputError 0)).

(** The entries in the order of [map_to_list]. *)
Definition rangeOrder (q : gmap string (list string)) : list (string * list string) :=
  map_to_list q.

End Sample.

(** Forty hexadecimal digits, and a link with nothing but exact topics. *)
Definition sampleHash : string := "0123456789ABCDEF0123456789ABCDEF01234567".

Definition sampleLink (xt : list Urn) : MagnetLink :=
  {| Dn := []; Xt := xt; Xl := []; As := []; Xs := []; Kt := []; Mt := [];
     Tr := []; So := []; Exps := ∅; Unknowns := ∅ |}.

(** ** urn.go and magnet_link.go: functions *)

Section Package.

(** [strings.Map(unicode.ToLower, s)] on strings that are not all ASCII. *)
Variable lowerNonASCII : string -> string.

(** [base32.StdEncoding.DecodeString]. *)
Variable base32DecodeString : string -> list Byte.byte * option base32.Error.

(** The order in which a [for key, values := range q] visits the entries
    of the map [q]; Go leaves it unspecified. *)
Variable rangeOrder : gmap string (list string) -> list (string * list string).

Definition ToLower : string -> string := strings.ToLower lowerNonASCII.

Definition ParseUrn (urn : string) : Urn * option UrnError :=
  match strings.Split urn ":" with
  | [scheme; nid; nss] =>
      if negb (String.eqb (ToLower scheme) "urn")
      then (zeroUrn, Some (ErrMalformedUrn UrnInvalidScheme))
      else ({| Nid := nid; Nss := nss |}, None)
  | _ => (zeroUrn, Some (ErrMalformedUrn UrnBare))
  end.

Definition checkIsMagnetLinkXTParameter (key : string) : bool :=
  if negb (strings.HasPrefix key "xt") then false
  else if String.eqb key "xt" then true
  else if (String.length key <? 4)%nat then false
  else if negb (bool_decide (String.get 2 key = Some "."%char)) then false
  else match strconv.Atoi (String.substring 3 (String.length key - 3) key) with
       | (_, None) => true
       | (_, Some _) => false
       end.

Definition parseXt (value : string) (l : MagnetLink) : result MagnetError MagnetLink :=
  match ParseUrn value with
  | (_, Some err) => Fail (malformed (InvalidXt err))
  | (urn, None) => Ok (appendXt l [urn])
  end.

Definition parseXl (value : string) (l : MagnetLink) : result MagnetError MagnetLink :=
  match strconv.Atoi value with
  | (_, Some err) => Fail (malformed (InvalidXl err))
  | (num, None) => Ok (appendXl l [num])
  end.

Definition parseAs (value : string) (l : MagnetLink) : result MagnetError MagnetLink :=
  match url.QueryUnescape value with
  | Fail err => Fail (malformed (InvalidAs err))
  | Ok value => Ok (appendAs l [value])
  end.

Definition parseTr (value : string) (l : MagnetLink) : result MagnetError MagnetLink :=
  match url.QueryUnescape value with
  | Fail err => Fail (malformed (InvalidTr err))
  | Ok value => Ok (appendTr l [value])
  end.

Definition parseSoSegment (s : string) (l : MagnetLink) : result MagnetError MagnetLink :=
  match ParseNumRangeFromString s with
  | (_, Some err) => Fail (malformed (InvalidSo err))
  | (numRange, None) => Ok (appendSo l [numRange])
  end.

Definition parseSo (value : string) (l : MagnetLink) : result MagnetError MagnetLink :=
  forEach parseSoSegment (strings.Split value ",") l.

(** The body of the loop over the query parameters. *)
Definition parseParameter (option : magnetLinkParseOption)
    (kv : string * list string) (l : MagnetLink) : result MagnetError MagnetLink :=
  let values := snd kv in
  let key := ToLower (fst kv) in
  if String.eqb key "dn" then Ok (appendDn l values)
  else if checkIsMagnetLinkXTParameter key then forEach parseXt values l
  else if String.eqb key "xl" then forEach parseXl values l
  else if String.eqb key "as" then forEach parseAs values l
  else if String.eqb key "xs" then Ok (appendXs l values)
  else if String.eqb key "kt" then Ok (appendKt l values)
  else if String.eqb key "mt" then Ok (appendMt l values)
  else if String.eqb key "tr" then forEach parseTr values l
  else if String.eqb key "so" then forEach parseSo values l
  else if strings.HasPrefix key "x." then
    if (String.length key <=? 2)%nat then Fail (malformed InvalidExperimental)
    else Ok (appendExps l (String.substring 2 (String.length key - 2) key) values)
  else
    if Strict option then Fail (malformed UnknownParameters)
    else Ok (appendUnknowns l key values).

Definition ParseMagnetLink (uri : string) (opts : list (option MagnetLinkParseOption))
  : result MagnetError MagnetLink :=
  let option := applyOptions opts in
  match url.Parse lowerNonASCII uri with
  | Fail err => Fail (malformed (ReasonURL err))
  | Ok u =>
      if negb (String.eqb (ToLower (url.Scheme u)) "magnet")
      then Fail (malformed InvalidScheme)
      else forEach (parseParameter option) (rangeOrder (url.Query u)) zeroMagnetLink
  end.

(** The [switch len(xt.Nss)] of [AsTorrent]. *)
Definition decodeBtih (nss : string) : result MagnetError HashValue :=
  let n := String.length nss in
  let finish (ty : string) (bs : list Byte.byte) (err : option DecodeError) :=
    match err with
    | Some e => Fail (malformed (CannotDecode e))
    | None => Ok {| Type_ := ty; Value := bs |}
    end in
  if (n =? 32)%nat then
    let '(bs, err) := base32DecodeString nss in finish HashSHA1 bs (Base32Error <$> err)
  else if (n =? 40)%nat then
    let '(bs, err) := hex.DecodeString nss in finish HashSHA1 bs (HexError <$> err)
  else if (n =? 56)%nat then
    let '(bs, err) := base32DecodeString nss in finish HashSHA256 bs (Base32Error <$> err)
  else if (n =? 64)%nat then
    let '(bs, err) := hex.DecodeString nss in finish HashSHA256 bs (HexError <$> err)
  else Fail (malformed BadLength).

Definition isBtih (xt : Urn) : bool := String.eqb (ToLower (Nid xt)) "btih".

(** The body of the loop of [AsTorrent] over [l.Xt]. *)
Definition collectInfoHash (xt : Urn) (hashes : list HashValue)
  : result MagnetError (list HashValue) :=
  if isBtih xt then
    match decodeBtih (Nss xt) with
    | Fail e => Fail e
    | Ok hashValue => Ok (hashes ++ [hashValue])
    end
  else Ok hashes.

Definition AsTorrent (l : MagnetLink) : result MagnetError TorrentMagnetLink :=
  match forEach collectInfoHash (Xt l) [] with
  | Fail e => Fail e
  | Ok hashes =>
      if (length hashes =? 0)%nat
      then Fail {| wraps := ErrWrongMagnetLinkType; reason := NoTorrent |}
      else Ok {| MagnetLink_ := l; InfoHashs := hashes |}
  end.

Definition ParseTorrentMagnetLink (uri : string) (opts : list (option MagnetLinkParseOption))
  : result MagnetError TorrentMagnetLink :=
  match ParseMagnetLink uri opts with
  | Fail err => Fail err
  | Ok magnetLink => AsTorrent magnetLink
  end.

(** ** Definitions used to state the properties *)

(** The value of a string of digits read into an accumulator, without
    any bound. *)
Fixpoint digitsValue (s : string) (acc : Z) : Z :=
  match s with
  | EmptyString => acc
  | String c r => digitsValue r (acc * 10 + strconv.digitVal c)
  end.

(** The table of [AsTorrent] in the words of its description: the
    length of the string selects the algorithm and the encoding. *)
Definition decodesAs (nss : string) (h : HashValue) : Prop :=
  (String.length nss = 32%nat ∧ Type_ h = HashSHA1
   ∧ base32DecodeString nss = (Value h, None))
  ∨ (String.length nss = 40%nat ∧ Type_ h = HashSHA1
     ∧ hex.DecodeString nss = (Value h, None))
  ∨ (String.length nss = 56%nat ∧ Type_ h = HashSHA256
     ∧ base32DecodeString nss = (Value h, None))
  ∨ (String.length nss = 64%nat ∧ Type_ h = HashSHA256
     ∧ hex.DecodeString nss = (Value h, None)).

Definition btihLength (n : nat) : bool :=
  (n =? 32)%nat || (n =? 40)%nat || (n =? 56)%nat || (n =? 64)%nat.

(** A lower-cased key that is none of dn, xt, xt.N, xl, as, xs, kt, mt,
    tr, so, and does not start with the experimental prefix. *)
Definition isUnknownKey (key : string) : bool :=
  negb (String.eqb key "dn" || checkIsMagnetLinkXTParameter key
        || String.eqb key "xl" || String.eqb key "as" || String.eqb key "xs"
        || String.eqb key "kt" || String.eqb key "mt" || String.eqb key "tr"
        || String.eqb key "so" || strings.HasPrefix key "x.").

(** Parse, then specialize: the composition [ParseTorrentMagnetLink] is
    described as. *)
Definition parseThenSpecialize (uri : string)
    (opts : list (option MagnetLinkParseOption))
  : result MagnetError TorrentMagnetLink :=
  bind (ParseMagnetLink uri opts) AsTorrent.

(** What a later state of the link under construction keeps of an
    earlier one: the trackers as a prefix, and every list of unknown
    parameters as a prefix of the list under the same key. *)
Definition extends (l l' : MagnetLink) : Prop :=
  (∃ post, Tr l' = Tr l ++ post)
  ∧ (∀ k vs, Unknowns l !! k = Some vs →
             ∃ post, Unknowns l' !! k = Some (vs ++ post)).

(** ** Definitions used to state further properties *)

(** [strings.Join(parts, sep)] for a separator of one byte. *)
Fixpoint Join (parts : list string) (sep : ascii) : string :=
  match parts with
  | [] => EmptyString
  | [x] => x
  | x :: rest => x +:+ String sep (Join rest sep)
  end.

(** A range that holds one number: what [NewSingleNumRange] builds. *)
Definition isSinglePoint (r : NumRange) : Prop :=
  Start r = End_ r ∧ IncludeStart r = true ∧ IncludeEnd r = true.

(** Key by key, the list of the later map starts with the list of the
    earlier one. *)
Definition mapGrows (m m' : gmap string (list string)) : Prop :=
  ∀ k vs, m !! k = Some vs → ∃ post, m' !! k = Some (vs ++ post).

(** Every field of the later link starts with the field of the earlier
    one: the loop of [ParseMagnetLink] only appends. *)
Definition grows (l l' : MagnetLink) : Prop :=
  Dn l `prefix_of` Dn l' ∧ Xt l `prefix_of` Xt l' ∧ Xl l `prefix_of` Xl l'
  ∧ As l `prefix_of` As l' ∧ Xs l `prefix_of` Xs l' ∧ Kt l `prefix_of` Kt l'
  ∧ Mt l `prefix_of` Mt l' ∧ Tr l `prefix_of` Tr l' ∧ So l `prefix_of` So l'
  ∧ mapGrows (Exps l) (Exps l') ∧ mapGrows (Unknowns l) (Unknowns l').


(** A parameter that the loop body accepts, whatever the link so far. *)
Definition accepted (option : magnetLinkParseOption) (kv : string * list string) : Prop :=
  ∃ l', parseParameter option kv zeroMagnetLink = Ok l'.

(** The entries in the reverse of the order of [map_to_list]: another
    order in which the map may be visited. *)
Definition reversedOrder (q : gmap string (list string)) : list (string * list string) :=
  reverse (map_to_list q).

(** The fields that only the keys so, x.name and the unknown keys write
    are the same in both links. *)
Definition sameTail (l l' : MagnetLink) : Prop :=
  So l' = So l ∧ Exps l' = Exps l ∧ Unknowns l' = Unknowns l.

(** The twenty bytes that [sampleHash] encodes, as a sha1 hash, and the
    torrent link made of a link whose only exact topic is that hash. *)
Definition sampleHashValue : HashValue :=
  {| Type_ := HashSHA1;
     Value := [Byte.x01; Byte.x23; Byte.x45; Byte.x67; Byte.x89; Byte.xab;
               Byte.xcd; Byte.xef; Byte.x01; Byte.x23; Byte.x45; Byte.x67;
               Byte.x89; Byte.xab; Byte.xcd; Byte.xef; Byte.x01; Byte.x23;
               Byte.x45; Byte.x67] |}.

Definition sampleTorrent : TorrentMagnetLink :=
  {| MagnetLink_ := sampleLink [{| Nid := "btih"; Nss := sampleHash |}];
     InfoHashs := [sampleHashValue] |}.

(** The keys the dispatch of [ParseMagnetLink] recognizes, lower-cased:
    dn, xt, xt.N, xl, as, xs, kt, mt, tr, so, and x.name with a name that
    is not empty. *)
Definition isRecognizedKey (key : string) : bool :=
  String.eqb key "dn" || checkIsMagnetLinkXTParameter key
  || String.eqb key "xl" || String.eqb key "as" || String.eqb key "xs"
  || String.eqb key "kt" || String.eqb key "mt" || String.eqb key "tr"
  || String.eqb key "so"
  || (strings.HasPrefix key "x." && (2 <? String.length key)%nat).

(** * Properties *)

(** Every entry of the map is visited once. *)
Hypothesis rangeOrder_perm : ∀ q, rangeOrder q ≡ₚ map_to_list q.


(** ** Splitting *)

Lemma Split_cons_inv s sep : ∃ x xs, strings.Split s sep = x :: xs.
Proof.
  induction s as [|c r IH]; simpl; [eauto|].
  destruct (Ascii.eqb c sep); [eauto|].
  destruct IH as (x & xs & ->). eauto.
Qed.

Lemma Split_no_sep s sep :
  string_count sep s = 0 → strings.Split s sep = [s].
Proof.
  induction s as [|c r IH]; simpl; [done|].
  destruct (Ascii.eqb c sep); [done|].
  intros H. by rewrite IH.
Qed.

Lemma Split_app a b sep :
  string_count sep a = 0 →
  strings.Split (a +:+ String sep b) sep = a :: strings.Split b sep.
Proof.
  induction a as [|c r IH]; simpl.
  - intros _. by rewrite Ascii.eqb_refl.
  - destruct (Ascii.eqb c sep); [done|].
    intros H. by rewrite IH.
Qed.

Lemma Split_length s sep :
  length (strings.Split s sep) = S (string_count sep s).
Proof.
  induction s as [|c r IH]; simpl; [done|].
  destruct (Ascii.eqb c sep); simpl; [by rewrite IH|].
  destruct (Split_cons_inv r sep) as (x & xs & E).
  rewrite E in IH |- *. done.
Qed.

Lemma string_count_app c a b :
  string_count c (a +:+ b) = string_count c a + string_count c b.
Proof. induction a as [|x r IH]; simpl; [done|]. rewrite IH. lia. Qed.

(** ** Decimal renderings *)

Lemma isDigit_digitVal c :
  isDigit c = true → (0 ≤ strconv.digitVal c ≤ 9)%Z.
Proof.
  unfold isDigit, between, strconv.digitVal. simpl.
  rewrite andb_true_iff, !N.leb_le. lia.
Qed.

Lemma isDigit_not_hyphen c : isDigit c = true → Ascii.eqb c "-" = false.
Proof.
  intros H. destruct (Ascii.eqb_spec c "-") as [->|]; [done|done].
Qed.

Lemma isDigit_not_plus c : isDigit c = true → Ascii.eqb c "+" = false.
Proof.
  intros H. destruct (Ascii.eqb_spec c "+") as [->|]; [done|done].
Qed.

Lemma digits_no_hyphen s :
  string_forallb isDigit s = true → string_count "-" s = 0.
Proof.
  induction s as [|c r IH]; simpl; [done|].
  rewrite andb_true_iff. intros [Hc Hr].
  by rewrite (isDigit_not_hyphen _ Hc), IH.
Qed.

Lemma digitsValue_ge s acc :
  string_forallb isDigit s = true → (0 ≤ acc)%Z → (acc ≤ digitsValue s acc)%Z.
Proof.
  revert acc. induction s as [|c r IH]; simpl; intros acc; [lia|].
  rewrite andb_true_iff. intros [Hc Hr] Hacc.
  pose proof (isDigit_digitVal _ Hc).
  specialize (IH (acc * 10 + strconv.digitVal c)%Z Hr). lia.
Qed.

Lemma parseUintLoop_digits s n :
  string_forallb isDigit s = true → (0 ≤ n)%Z →
  (digitsValue s n < 2 ^ 64)%Z →
  strconv.parseUintLoop s n = (digitsValue s n, None).
Proof.
  revert n. induction s as [|c r IH]; simpl; intros n; [done|].
  rewrite andb_true_iff. intros [Hc Hr] Hn Hv. rewrite Hc.
  pose proof (isDigit_digitVal _ Hc) as Hd.
  pose proof (digitsValue_ge r (n * 10 + strconv.digitVal c)%Z Hr ltac:(lia)) as Hge.
  unfold strconv.maxUint64.
  change (2 ^ 64)%Z with 18446744073709551616%Z in *.
  change ((18446744073709551616 - 1) `div` 10 + 1)%Z with 1844674407370955162%Z.
  destruct (Z.leb_spec 1844674407370955162 n); [lia|].
  rewrite Z.mod_small by lia.
  destruct (Z.ltb_spec (n * 10 + strconv.digitVal c) (n * 10)); [lia|].
  destruct (Z.ltb_spec (18446744073709551616 - 1) (n * 10 + strconv.digitVal c)); [lia|].
  simpl. apply IH; [done|lia|done].
Qed.

Lemma string_of_uint_digits d :
  string_forallb isDigit (NilEmpty.string_of_uint d) = true.
Proof. induction d; simpl; auto. Qed.

Lemma digitsValue_of_uint_acc d p :
  digitsValue (NilEmpty.string_of_uint d) (Z.pos p) = Z.pos (Pos.of_uint_acc d p).
Proof.
  revert p. induction d; intros p; simpl; [done|..];
    rewrite <- IHd; f_equal; unfold strconv.digitVal;
    vm_compute (N_of_ascii _); lia.
Qed.

Lemma digitsValue_of_uint d :
  digitsValue (NilEmpty.string_of_uint d) 0 = Z.of_N (Pos.of_uint d).
Proof.
  induction d; simpl; [done|exact IHd|..];
    exact (digitsValue_of_uint_acc d _).
Qed.

(** The rendering of a natural number: digits only, never empty, and
    read back by [digitsValue]. *)
Lemma Itoa_nonneg n :
  (0 ≤ n)%Z →
  ∃ c r, strconv.Itoa n = String c r
         ∧ string_forallb isDigit (String c r) = true
         ∧ digitsValue (String c r) 0 = n.
Proof.
  intros Hn. unfold strconv.Itoa.
  destruct n as [|p|p]; [| |lia].
  - exists "0"%char, EmptyString. done.
  - simpl. pose proof (DecimalPos.Unsigned.of_to p) as Hp.
    pose proof (digitsValue_of_uint (Pos.to_uint p)) as Hv.
    pose proof (string_of_uint_digits (Pos.to_uint p)) as Hdig.
    rewrite Hp in Hv.
    destruct (Pos.to_uint p) eqn:E; simpl in *; try discriminate; eauto.
Qed.

Lemma Itoa_neg n :
  (n < 0)%Z → ∃ r, strconv.Itoa n = String "-" r.
Proof.
  intros Hn. destruct n as [|p|p]; [lia|lia|].
  unfold strconv.Itoa. simpl. eauto.
Qed.

Lemma Atoi_Itoa n :
  (0 ≤ n < 2 ^ 63)%Z → strconv.Atoi (strconv.Itoa n) = (n, None).
Proof.
  intros [Hn Hb]. destruct (Itoa_nonneg n Hn) as (c & r & -> & Hdig & Hv).
  assert (Hc : isDigit c = true) by (simpl in Hdig; by apply andb_true_iff in Hdig as [? _]).
  unfold strconv.Atoi, strconv.ParseInt.
  rewrite (isDigit_not_hyphen _ Hc), (isDigit_not_plus _ Hc). simpl orb. cbv iota.
  unfold strconv.ParseUint.
  rewrite parseUintLoop_digits; [|done|lia|rewrite Hv; lia].
  rewrite Hv. unfold strconv.intSize.
  change (2 ^ (64 - 1))%Z with (2 ^ 63)%Z.
  destruct (Z.leb_spec (2 ^ 63) n); [lia|]. done.
Qed.

(** ** Number ranges *)

Lemma Split_two a b sep :
  string_count sep a = 0 → string_count sep b = 0 →
  strings.Split (a +:+ String sep b) sep = [a; b].
Proof. intros Ha Hb. by rewrite Split_app, Split_no_sep. Qed.

Lemma Split_three_or_more s sep :
  (2 ≤ string_count sep s)%nat →
  ∃ x y z rest, strings.Split s sep = x :: y :: z :: rest.
Proof.
  intros H. pose proof (Split_length s sep) as Hl.
  destruct (strings.Split s sep) as [|x [|y [|z rest]]]; simpl in Hl; try lia.
  eauto 6.
Qed.

(** In the two-segment branch the function never reaches a [return]
    with a nil error: whatever the two segments are, the error is set. *)
Lemma ParseNumRangeFromString_two_segments_fail (s : string) :
  string_count "-" s = 1 → snd (ParseNumRangeFromString s) ≠ None.
Proof.
  intros H. pose proof (Split_length s "-") as Hl. rewrite H in Hl.
  unfold ParseNumRangeFromString.
  destruct (strings.Split s "-") as [|x [|y [|z rest]]]; simpl in Hl; try lia.
  destruct (strconv.Atoi x) as [? [?|]]; [done|].
  destruct (strconv.Atoi y) as [? [?|]]; done.
Qed.

(** C1, as amended: for non-negative integers a and b that fit an int,
    parsing the rendering of a, a hyphen and the rendering of b splits
    it into two segments, reads both and builds the range with start a,
    end b and both bounds included; when a or b is negative the string
    has three or more hyphen-delimited segments and the call fails with
    the malformed-range error, its range left at the zero value. *)
Theorem ParseNumRangeFromString_two_bounds (a b : Z) :
  ((0 ≤ a < 2 ^ 63)%Z → (0 ≤ b < 2 ^ 63)%Z →
   fst (ParseNumRangeFromString (strconv.Itoa a +:+ "-" +:+ strconv.Itoa b))
   = {| Start := a; End_ := b; IncludeStart := true; IncludeEnd := true |})
  ∧ ((a < 0 ∨ b < 0)%Z →
     ParseNumRangeFromString (strconv.Itoa a +:+ "-" +:+ strconv.Itoa b)
     = (zeroNumRange, Some NumRangeMalformed)).
Proof.
  split.
  - intros Ha Hb.
    destruct (Itoa_nonneg a (proj1 Ha)) as (ca & ra & Ea & Hda & _).
    destruct (Itoa_nonneg b (proj1 Hb)) as (cb & rb & Eb & Hdb & _).
    unfold ParseNumRangeFromString. change ("-" +:+ ?x) with (String "-" x).
    rewrite Split_two by (rewrite ?Ea, ?Eb; by apply digits_no_hyphen).
    by rewrite !Atoi_Itoa.
  - intros Hneg. unfold ParseNumRangeFromString.
    change ("-" +:+ ?x) with (String "-" x).
    destruct (Split_three_or_more
                (strconv.Itoa a +:+ String "-" (strconv.Itoa b)) "-")
      as (x & y & z & rest & ->); [|done].
    rewrite string_count_app. simpl.
    destruct Hneg as [H|H]; destruct (Itoa_neg _ H) as (r & ->); simpl; lia.
Qed.

(** C2, as amended: for every non-negative integer n that fits an int,
    parsing its decimal rendering succeeds with the single-point range
    from n to n, both bounds included; and an input without a hyphen
    that [strconv.Atoi] rejects fails with that error, the range left at
    the zero value. *)
Theorem ParseNumRangeFromString_single (n : Z) (s : string) (v : Z)
    (e : strconv.NumError) :
  ((0 ≤ n < 2 ^ 63)%Z →
   ParseNumRangeFromString (strconv.Itoa n) = (NewSingleNumRange n, None))
  ∧ (string_count "-" s = 0 → strconv.Atoi s = (v, Some e) →
     ParseNumRangeFromString s = (zeroNumRange, Some (NumRangeAtoi e))).
Proof.
  split.
  - intros Hn.
    destruct (Itoa_nonneg n (proj1 Hn)) as (c & r & E & Hd & _).
    unfold ParseNumRangeFromString.
    rewrite Split_no_sep by (rewrite E; by apply digits_no_hyphen).
    by rewrite Atoi_Itoa.
  - intros Hs He. unfold ParseNumRangeFromString.
    by rewrite Split_no_sep, He.
Qed.

(** ** URNs *)

Lemma ToLower_urn : ToLower "urn" = "urn".
Proof. reflexivity. Qed.

Lemma Split_three a b c sep :
  string_count sep a = 0 → string_count sep b = 0 → string_count sep c = 0 →
  strings.Split (a +:+ String sep (b +:+ String sep c)) sep = [a; b; c].
Proof. intros Ha Hb Hc. by rewrite Split_app, Split_two. Qed.

(** C7: a string of three colon-free segments joined by colons whose
    first segment lowers to urn parses to the Urn made of the second and
    the third segment, taken as they are; when the first segment does
    not lower to urn, or when the number of colon-delimited segments is
    not three, [ParseUrn] fails with an error that wraps
    [ErrMalformedUrn]. *)
Theorem ParseUrn_three_segments (a b c s : string) :
  string_count ":" a = 0 → string_count ":" b = 0 → string_count ":" c = 0 →
  (ToLower a = "urn" →
   ParseUrn (a +:+ ":" +:+ b +:+ ":" +:+ c) = ({| Nid := b; Nss := c |}, None))
  ∧ (ToLower a ≠ "urn" →
     ParseUrn (a +:+ ":" +:+ b +:+ ":" +:+ c)
     = (zeroUrn, Some (ErrMalformedUrn UrnInvalidScheme)))
  ∧ (string_count ":" s ≠ 2 →
     ParseUrn s = (zeroUrn, Some (ErrMalformedUrn UrnBare))).
Proof.
  intros Ha Hb Hc. unfold ParseUrn.
  change (a +:+ ":" +:+ b +:+ ":" +:+ c)
    with (a +:+ String ":" (b +:+ String ":" c)).
  rewrite Split_three by done.
  split; [|split].
  - intros ->. done.
  - intros Hne. by destruct (String.eqb_spec (ToLower a) "urn").
  - intros Hs. pose proof (Split_length s ":") as Hl.
    destruct (strings.Split s ":") as [|x [|y [|z [|w rest]]]];
      simpl in Hl; try done.
    lia.
Qed.

(** C10: parsing the rendering of a Urn whose two parts hold no colon
    gives the Urn back. *)
Theorem ParseUrn_String (u : Urn) :
  string_count ":" (Nid u) = 0 → string_count ":" (Nss u) = 0 →
  ParseUrn (Urn_String u) = (u, None).
Proof.
  intros Hn Hs. destruct u as [nid nss]. simpl in *.
  unfold ParseUrn, Urn_String. simpl Nid. simpl Nss.
  change ("urn:" +:+ nid +:+ ":" +:+ nss)
    with ("urn" +:+ String ":" (nid +:+ String ":" nss)).
  rewrite Split_three by done. by rewrite ToLower_urn.
Qed.

(** ** Loops *)

Lemma forEach_app {E A S} (body : A → S → result E S) xs ys s :
  forEach body (xs ++ ys) s =
  match forEach body xs s with
  | Ok s' => forEach body ys s'
  | Fail e => Fail e
  end.
Proof.
  revert s. induction xs as [|x xs IH]; intros s; simpl; [done|].
  destruct (body x s); [apply IH|done].
Qed.

Lemma forEach_fail {E A S} (body : A → S → result E S) (P : E → Prop) xs s e :
  (∀ x s e, body x s = Fail e → P e) →
  forEach body xs s = Fail e → P e.
Proof.
  intros Hbody. revert s. induction xs as [|x xs IH]; intros s; simpl; [done|].
  destruct (body x s) eqn:Hx; [apply IH|].
  intros [= <-]. eauto.
Qed.

Lemma forEach_ok {E A S} (body : A → S → result E S) (R : S → S → Prop) xs s s' :
  (∀ s, R s s) → (∀ s1 s2 s3, R s1 s2 → R s2 s3 → R s1 s3) →
  (∀ x s s', body x s = Ok s' → R s s') →
  forEach body xs s = Ok s' → R s s'.
Proof.
  intros Hrefl Htrans Hbody. revert s.
  induction xs as [|x xs IH]; intros s; simpl.
  - intros [= <-]. apply Hrefl.
  - destruct (body x s) eqn:Hx; [|done].
    intros H. eapply Htrans; eauto.
Qed.

(** ** Torrent specialization *)

Lemma decodeBtih_ok nss h : decodeBtih nss = Ok h → decodesAs nss h.
Proof.
  unfold decodeBtih, decodesAs.
  destruct (Nat.eqb_spec (String.length nss) 32) as [E|_];
    [|destruct (Nat.eqb_spec (String.length nss) 40) as [E|_];
      [|destruct (Nat.eqb_spec (String.length nss) 56) as [E|_];
        [|destruct (Nat.eqb_spec (String.length nss) 64) as [E|_]; [|done]]]].
  - destruct (base32DecodeString nss) as [bs [e|]]; simpl; [done|].
    intros [= <-]. simpl. auto.
  - destruct (hex.DecodeString nss) as [bs [e|]]; simpl; [done|].
    intros [= <-]. simpl. auto.
  - destruct (base32DecodeString nss) as [bs [e|]]; simpl; [done|].
    intros [= <-]. simpl. auto 6.
  - destruct (hex.DecodeString nss) as [bs [e|]]; simpl; [done|].
    intros [= <-]. simpl. auto 6.
Qed.

Lemma decodesAs_decodeBtih nss h : decodesAs nss h → decodeBtih nss = Ok h.
Proof.
  unfold decodeBtih, decodesAs. destruct h as [ty bs]. simpl.
  intros [(E & -> & D)|[(E & -> & D)|[(E & -> & D)|(E & -> & D)]]];
    rewrite E; simpl; rewrite D; done.
Qed.

Lemma decodesAs_length nss h :
  decodesAs nss h → btihLength (String.length nss) = true.
Proof.
  unfold decodesAs, btihLength.
  intros [(E & _)|[(E & _)|[(E & _)|(E & _)]]]; by rewrite E.
Qed.

Lemma decodeBtih_fail nss e :
  decodeBtih nss = Fail e → wraps e = ErrMalformedMagnetLink.
Proof.
  unfold decodeBtih.
  repeat match goal with
         | |- context [if ?b then _ else _] => destruct b
         | |- context [let '(_, _) := ?x in _] => destruct x as [? [?|]]
         end; simpl; try done; by intros [= <-].
Qed.

Lemma collectInfoHash_ok xts : ∀ hs hs',
  forEach collectInfoHash xts hs = Ok hs' →
  ∃ new, hs' = hs ++ new
         ∧ Forall2 (λ xt h, decodesAs (Nss xt) h) (List.filter isBtih xts) new.
Proof.
  induction xts as [|xt xts IH]; intros hs hs'; simpl.
  - intros [= <-]. exists []. by rewrite app_nil_r.
  - unfold collectInfoHash at 1. destruct (isBtih xt) eqn:Hb.
    + destruct (decodeBtih (Nss xt)) as [h|e] eqn:Hd; [|done].
      intros H. destruct (IH _ _ H) as (new & -> & HF).
      exists (h :: new). rewrite <- app_assoc. split; [done|].
      constructor; [by apply decodeBtih_ok|done].
    + apply IH.
Qed.

Lemma collectInfoHash_complete xts : ∀ hs new,
  Forall2 (λ xt h, decodesAs (Nss xt) h) (List.filter isBtih xts) new →
  forEach collectInfoHash xts hs = Ok (hs ++ new).
Proof.
  induction xts as [|xt xts IH]; intros hs new; simpl.
  - intros H. apply Forall2_nil_inv_l in H as ->. by rewrite app_nil_r.
  - unfold collectInfoHash at 1. destruct (isBtih xt) eqn:Hb.
    + intros H. apply Forall2_cons_inv_l in H as (h & new' & Hh & HF & ->).
      rewrite (decodesAs_decodeBtih _ _ Hh).
      rewrite (IH _ _ HF). by rewrite <- app_assoc.
    + apply IH.
Qed.

Lemma collectInfoHash_fail xts hs e :
  forEach collectInfoHash xts hs = Fail e → wraps e = ErrMalformedMagnetLink.
Proof.
  apply (forEach_fail collectInfoHash (λ e, wraps e = ErrMalformedMagnetLink)).
  intros xt s e'. unfold collectInfoHash.
  destruct (isBtih xt); [|done].
  destruct (decodeBtih (Nss xt)) eqn:Hd; [done|].
  intros [= <-]. by eapply decodeBtih_fail.
Qed.

Lemma AsTorrent_ok l t :
  AsTorrent l = Ok t →
  MagnetLink_ t = l ∧ InfoHashs t ≠ []
  ∧ forEach collectInfoHash (Xt l) [] = Ok (InfoHashs t).
Proof.
  unfold AsTorrent.
  destruct (forEach collectInfoHash (Xt l) []) as [hs|e]; [|done].
  destruct hs as [|h hs]; simpl; [done|].
  intros [= <-]. simpl. done.
Qed.

Lemma AsTorrent_fail l e :
  AsTorrent l = Fail e →
  wraps e = ErrMalformedMagnetLink
  ∨ e = {| wraps := ErrWrongMagnetLinkType; reason := NoTorrent |}.
Proof.
  unfold AsTorrent.
  destruct (forEach collectInfoHash (Xt l) []) as [hs|e'] eqn:Hc.
  - destruct hs; simpl; [|done]. intros [= <-]. by right.
  - intros [= <-]. left. by eapply collectInfoHash_fail.
Qed.

Lemma hex_DecodeString_even n : ∀ s,
  String.length s = (2 * n)%nat → string_forallb url.ishex s = true →
  ∃ bs, hex.DecodeString s = (bs, None) ∧ length bs = n.
Proof.
  induction n as [|n IH]; intros s Hl Hh.
  - destruct s; [|done]. by exists [].
  - destruct s as [|p [|q r]]; simpl in Hl; try lia.
    simpl in Hh. apply andb_true_iff in Hh as [Hp Hh].
    apply andb_true_iff in Hh as [Hq Hr].
    destruct (IH r ltac:(lia) Hr) as (bs & Hd & Hlen).
    unfold url.ishex in Hp, Hq.
    cbn [hex.DecodeString].
    destruct (hex.fromHexChar p) as [a|]; [|done].
    destruct (hex.fromHexChar q) as [b|]; [|done].
    rewrite Hd. eexists. split; [done|]. simpl. by rewrite Hlen.
Qed.

(** C3: [AsTorrent] decodes the string of every exact topic whose
    namespace lowers to btih by the length of that string (32 and 56 as
    base 32, 40 and 64 as hexadecimal, 32 and 40 giving a SHA-1 hash, 56
    and 64 a SHA-256 hash) and collects the hashes in order; it succeeds
    exactly when every such string decodes and there is at least one;
    another length makes it fail with an error that wraps
    [ErrMalformedMagnetLink]; a link whose only exact topic is a btih
    Urn of 40 hexadecimal digits gives one SHA-1 hash of 20 bytes. *)
Theorem AsTorrent_dispatch (l : MagnetLink) :
  (∀ t, AsTorrent l = Ok t →
        Forall2 (λ xt h, decodesAs (Nss xt) h)
                (List.filter isBtih (Xt l)) (InfoHashs t))
  ∧ (∀ hs, hs ≠ [] →
           Forall2 (λ xt h, decodesAs (Nss xt) h) (List.filter isBtih (Xt l)) hs →
           AsTorrent l = Ok {| MagnetLink_ := l; InfoHashs := hs |})
  ∧ (∀ xt, xt ∈ Xt l → isBtih xt = true →
           btihLength (String.length (Nss xt)) = false →
           ∃ e, AsTorrent l = Fail e ∧ wraps e = ErrMalformedMagnetLink)
  ∧ (∀ nid nss, Xt l = [{| Nid := nid; Nss := nss |}] →
           ToLower nid = "btih" → String.length nss = 40%nat →
           string_forallb url.ishex nss = true →
           ∃ bs, AsTorrent l
                 = Ok {| MagnetLink_ := l;
                         InfoHashs := [{| Type_ := HashSHA1; Value := bs |}] |}
                 ∧ length bs = 20%nat).
Proof.
  split; [|split; [|split]].
  - intros t Ht. apply AsTorrent_ok in Ht as (_ & _ & Hc).
    apply collectInfoHash_ok in Hc as (new & E & HF). by rewrite E.
  - intros hs Hne HF. unfold AsTorrent.
    rewrite (collectInfoHash_complete _ [] hs HF). simpl.
    by destruct hs.
  - intros xt Hin Hb Hlen.
    destruct (forEach collectInfoHash (Xt l) []) as [hs|e] eqn:Hc.
    + exfalso. apply collectInfoHash_ok in Hc as (new & _ & HF).
      assert (Hin' : xt ∈ List.filter isBtih (Xt l)).
      { apply list_elem_of_In, filter_In. split; [by apply list_elem_of_In|done]. }
      apply list_elem_of_lookup in Hin' as (i & Hi).
      destruct (Forall2_lookup_l _ _ _ _ _ HF Hi) as (h & _ & Hh).
      apply decodesAs_length in Hh. congruence.
    + exists e. unfold AsTorrent. rewrite Hc. split; [done|].
      by eapply collectInfoHash_fail.
  - intros nid nss HXt Hnid Hlen Hhex.
    destruct (hex_DecodeString_even 20 nss Hlen Hhex) as (bs & Hd & Hbs).
    exists bs. split; [|done].
    unfold AsTorrent. rewrite HXt. simpl.
    unfold collectInfoHash, isBtih. simpl. rewrite Hnid. simpl.
    unfold decodeBtih. rewrite Hlen. simpl. rewrite Hd. done.
Qed.

(** C4: when no exact topic has a namespace that lowers to btih (the
    list may be empty), [AsTorrent] fails with the error that wraps
    [ErrWrongMagnetLinkType], not [ErrMalformedMagnetLink]; and when it
    succeeds at least one hash was collected, from an exact topic whose
    namespace lowers to btih. *)
Theorem AsTorrent_no_btih (l : MagnetLink) :
  (Forall (λ xt, isBtih xt = false) (Xt l) →
   AsTorrent l = Fail {| wraps := ErrWrongMagnetLinkType; reason := NoTorrent |})
  ∧ (∀ t, AsTorrent l = Ok t →
          InfoHashs t ≠ [] ∧ ∃ xt, xt ∈ Xt l ∧ isBtih xt = true).
Proof.
  split.
  - intros Hall. unfold AsTorrent.
    assert (Hf : List.filter isBtih (Xt l) = []).
    { induction Hall as [|xt xts Hxt _ IH]; simpl; [done|]. by rewrite Hxt. }
    rewrite (collectInfoHash_complete (Xt l) [] []); [done|].
    rewrite Hf. constructor.
  - intros t Ht. apply AsTorrent_ok in Ht as (_ & Hne & Hc).
    split; [done|].
    apply collectInfoHash_ok in Hc as (new & E & HF). simpl in E. subst new.
    destruct (List.filter isBtih (Xt l)) as [|xt rest] eqn:Hf.
    + apply Forall2_nil_inv_l in HF. done.
    + assert (Hin : In xt (List.filter isBtih (Xt l))) by (rewrite Hf; by left).
      apply filter_In in Hin as [Hin Hb].
      exists xt. split; [by apply list_elem_of_In|done].
Qed.

(** ** Parsing a magnet link *)

(** C5: an input that [url.Parse] accepts and whose scheme does not
    lower to magnet makes [ParseMagnetLink] fail with the error that
    wraps [ErrMalformedMagnetLink] with the invalid-scheme message, not
    with the one that carries an error of [url.Parse]; no link is
    returned. *)
Theorem ParseMagnetLink_invalid_scheme (uri : string)
    (opts : list (option MagnetLinkParseOption)) (u : url.URL) :
  url.Parse lowerNonASCII uri = Ok u →
  ToLower (url.Scheme u) ≠ "magnet" →
  ParseMagnetLink uri opts = Fail (malformed InvalidScheme).
Proof.
  intros Hu Hs. unfold ParseMagnetLink. rewrite Hu.
  by destruct (String.eqb_spec (ToLower (url.Scheme u)) "magnet").
Qed.

(** C9: [ParseTorrentMagnetLink] is [ParseMagnetLink] followed by
    [AsTorrent]: an error of the first stage is returned as it is, and
    otherwise the result, error or link, is that of [AsTorrent]. *)
Theorem ParseTorrentMagnetLink_composition (uri : string)
    (opts : list (option MagnetLinkParseOption)) :
  ParseTorrentMagnetLink uri opts = parseThenSpecialize uri opts
  ∧ (∀ e, ParseMagnetLink uri opts = Fail e →
          ParseTorrentMagnetLink uri opts = Fail e)
  ∧ (∀ l, ParseMagnetLink uri opts = Ok l →
          ParseTorrentMagnetLink uri opts = AsTorrent l).
Proof.
  unfold ParseTorrentMagnetLink, parseThenSpecialize, bind.
  split; [|split].
  - by destruct (ParseMagnetLink uri opts).
  - by intros e ->.
  - by intros l ->.
Qed.

(** ** The loop over the query parameters *)

Lemma extends_refl l : extends l l.
Proof.
  split; [exists []; by rewrite app_nil_r|].
  intros k vs H. exists []. by rewrite app_nil_r.
Qed.

Lemma extends_trans l1 l2 l3 : extends l1 l2 → extends l2 l3 → extends l1 l3.
Proof.
  intros [[p1 H1] U1] [[p2 H2] U2]. split.
  - exists (p1 ++ p2). by rewrite H2, H1, app_assoc.
  - intros k vs H. destruct (U1 _ _ H) as (q1 & H').
    destruct (U2 _ _ H') as (q2 & H''). exists (q1 ++ q2).
    by rewrite H'', app_assoc.
Qed.

Lemma extends_same l l' :
  Tr l' = Tr l → Unknowns l' = Unknowns l → extends l l'.
Proof.
  intros HT HU. split; [exists []; by rewrite app_nil_r|].
  intros k vs H. exists []. by rewrite HU, app_nil_r.
Qed.

Lemma extends_forEach {A} (body : A → MagnetLink → result MagnetError MagnetLink)
    xs l l' :
  (∀ x s s', body x s = Ok s' → extends s s') →
  forEach body xs l = Ok l' → extends l l'.
Proof.
  intros H. apply (forEach_ok body extends); auto using extends_refl.
  apply extends_trans.
Qed.

Lemma parseXt_extends v l l' : parseXt v l = Ok l' → extends l l'.
Proof.
  unfold parseXt. destruct (ParseUrn v) as [u [e|]]; [done|].
  intros [= <-]. by apply extends_same.
Qed.

Lemma parseXl_extends v l l' : parseXl v l = Ok l' → extends l l'.
Proof.
  unfold parseXl. destruct (strconv.Atoi v) as [n [e|]]; [done|].
  intros [= <-]. by apply extends_same.
Qed.

Lemma parseAs_extends v l l' : parseAs v l = Ok l' → extends l l'.
Proof.
  unfold parseAs. destruct (url.QueryUnescape v); [|done].
  intros [= <-]. by apply extends_same.
Qed.

Lemma parseTr_extends v l l' : parseTr v l = Ok l' → extends l l'.
Proof.
  unfold parseTr. destruct (url.QueryUnescape v) as [d|]; [|done].
  intros [= <-]. split; [by exists [d]|].
  intros k vs H. exists []. by rewrite app_nil_r.
Qed.

Lemma parseSo_extends v l l' : parseSo v l = Ok l' → extends l l'.
Proof.
  unfold parseSo. apply extends_forEach. intros s m m'.
  unfold parseSoSegment. destruct (ParseNumRangeFromString s) as [r [e|]]; [done|].
  intros [= <-]. by apply extends_same.
Qed.

Lemma appendUnknowns_extends l key vs : extends l (appendUnknowns l key vs).
Proof.
  split; [exists []; by rewrite app_nil_r|].
  intros k ws H. simpl. unfold url.appendAt.
  destruct (decide (key = k)) as [->|Hne].
  - rewrite lookup_insert_eq, H. simpl. by exists vs.
  - rewrite lookup_insert_ne by done. exists []. by rewrite app_nil_r.
Qed.

Lemma parseParameter_extends option kv l l' :
  parseParameter option kv l = Ok l' → extends l l'.
Proof.
  unfold parseParameter.
  repeat match goal with
         | |- context [if ?b then _ else _] => destruct b
         end;
    try done;
    try (intros [= <-]; by apply extends_same);
    try (apply extends_forEach;
         eauto using parseXt_extends, parseXl_extends, parseAs_extends,
                     parseTr_extends, parseSo_extends).
  intros [= <-]. apply appendUnknowns_extends.
Qed.

Lemma forEach_malformed {A} (body : A → MagnetLink → result MagnetError MagnetLink)
    xs l e :
  (∀ x s e, body x s = Fail e → wraps e = ErrMalformedMagnetLink) →
  forEach body xs l = Fail e → wraps e = ErrMalformedMagnetLink.
Proof. apply (forEach_fail body (λ e, wraps e = ErrMalformedMagnetLink)). Qed.

Lemma parseParameter_fail option kv l e :
  parseParameter option kv l = Fail e → wraps e = ErrMalformedMagnetLink.
Proof.
  unfold parseParameter.
  repeat match goal with
         | |- context [if ?b then _ else _] => destruct b
         end;
    try done; try (by intros [= <-]); apply forEach_malformed.
  - intros v s e'. unfold parseXt.
    destruct (ParseUrn v) as [? [?|]]; [|done]. by intros [= <-].
  - intros v s e'. unfold parseXl.
    destruct (strconv.Atoi v) as [? [?|]]; [|done]. by intros [= <-].
  - intros v s e'. unfold parseAs.
    destruct (url.QueryUnescape v); [done|]. by intros [= <-].
  - intros v s e'. unfold parseTr.
    destruct (url.QueryUnescape v); [done|]. by intros [= <-].
  - intros v s e'. unfold parseSo. apply forEach_malformed.
    intros x m e''. unfold parseSoSegment.
    destruct (ParseNumRangeFromString x) as [? [?|]]; [|done]. by intros [= <-].
Qed.

(** Every error of [ParseMagnetLink] wraps [ErrMalformedMagnetLink]. *)
Lemma ParseMagnetLink_fail uri opts e :
  ParseMagnetLink uri opts = Fail e → wraps e = ErrMalformedMagnetLink.
Proof.
  unfold ParseMagnetLink.
  destruct (url.Parse lowerNonASCII uri) as [u|err]; [|by intros [= <-]].
  destruct (negb _); [by intros [= <-]|].
  apply forEach_malformed. intros kv s e'. apply parseParameter_fail.
Qed.

(** With a valid magnet scheme the result is that of the loop. *)
Lemma ParseMagnetLink_loop uri opts u :
  url.Parse lowerNonASCII uri = Ok u →
  ToLower (url.Scheme u) = "magnet" →
  ParseMagnetLink uri opts
  = forEach (parseParameter (applyOptions opts))
            (rangeOrder (url.Query u)) zeroMagnetLink.
Proof.
  intros Hu Hs. unfold ParseMagnetLink. by rewrite Hu, Hs.
Qed.

Lemma rangeOrder_visits q key values :
  q !! key = Some values →
  ∃ before after, rangeOrder q = before ++ (key, values) :: after.
Proof.
  intros H. apply list_elem_of_split.
  rewrite (rangeOrder_perm q). by apply elem_of_map_to_list.
Qed.

Lemma rangeOrder_entries q kv :
  kv ∈ rangeOrder q → q !! kv.1 = Some kv.2.
Proof.
  rewrite (rangeOrder_perm q). destruct kv. by rewrite elem_of_map_to_list.
Qed.

(** A successful loop went through each of its steps. *)
Lemma forEach_step {E A S} (body : A → S → result E S) before x after s s' :
  forEach body (before ++ x :: after) s = Ok s' →
  ∃ s1 s2, forEach body before s = Ok s1 ∧ body x s1 = Ok s2
           ∧ forEach body after s2 = Ok s'.
Proof.
  rewrite forEach_app. destruct (forEach body before s) as [s1|]; [|done].
  simpl. destruct (body x s1) as [s2|] eqn:Hx; [|done]. eauto.
Qed.

Lemma parseParameter_unknown option key values l :
  isUnknownKey (ToLower key) = true →
  parseParameter option (key, values) l
  = if Strict option then Fail (malformed UnknownParameters)
    else Ok (appendUnknowns l (ToLower key) values).
Proof.
  unfold isUnknownKey, parseParameter. simpl fst. simpl snd.
  rewrite negb_true_iff, !orb_false_iff.
  intros (((((((((-> & ->) & ->) & ->) & ->) & ->) & ->) & ->) & ->) & ->).
  done.
Qed.

Lemma parseParameter_tr option key values l :
  ToLower key = "tr" →
  parseParameter option (key, values) l = forEach parseTr values l.
Proof. intros H. unfold parseParameter. simpl fst. by rewrite H. Qed.

Lemma forEach_parseTr values : ∀ l l',
  forEach parseTr values l = Ok l' →
  ∃ decoded, Forall2 (λ v d, url.QueryUnescape v = Ok d) values decoded
             ∧ Tr l' = Tr l ++ decoded.
Proof.
  induction values as [|v vs IH]; intros l l'; simpl.
  - intros [= <-]. exists []. split; [constructor|by rewrite app_nil_r].
  - unfold parseTr at 1.
    destruct (url.QueryUnescape v) as [d|] eqn:Hd; [|done].
    intros H. destruct (IH _ _ H) as (ds & HF & HT).
    exists (d :: ds). split; [by constructor|].
    rewrite HT. simpl. by rewrite <- app_assoc.
Qed.

Lemma forEach_unknown option xs : ∀ l,
  Strict option = false →
  Forall (λ kv, isUnknownKey (ToLower kv.1) = true) xs →
  ∃ l', forEach (parseParameter option) xs l = Ok l'.
Proof.
  induction xs as [|[k vs] xs IH]; intros l Hs Hall; simpl; [eauto|].
  apply Forall_cons in Hall as [Hk Hall].
  rewrite (parseParameter_unknown _ _ _ _ Hk), Hs. by apply IH.
Qed.

(** C8: the magnet link with dn=Test and a percent-encoded tracker parses
    to display names [Test] and trackers [http://tracker.example/announce]
    and nothing else; in general the values under a key that lowers to
    tr, which the query decomposition has percent-decoded once, are
    unescaped once more and appended in order, and a value that does not
    unescape makes the parse fail with an error that wraps
    [ErrMalformedMagnetLink]; so a tracker written a%252Fb comes out as
    a/b. *)
Theorem ParseMagnetLink_trackers :
  (∀ opts,
     ParseMagnetLink "magnet:?dn=Test&tr=http%3A%2F%2Ftracker.example%2Fannounce" opts
     = Ok {| Dn := ["Test"]; Xt := []; Xl := []; As := []; Xs := []; Kt := [];
             Mt := []; Tr := ["http://tracker.example/announce"]; So := [];
             Exps := ∅; Unknowns := ∅ |})
  ∧ (∀ uri opts u key values,
       url.Parse lowerNonASCII uri = Ok u →
       ToLower (url.Scheme u) = "magnet" →
       url.Query u !! key = Some values →
       ToLower key = "tr" →
       (∀ l, ParseMagnetLink uri opts = Ok l →
             ∃ decoded pre post,
               Forall2 (λ v d, url.QueryUnescape v = Ok d) values decoded
               ∧ Tr l = pre ++ decoded ++ post)
       ∧ (∀ v e, v ∈ values → url.QueryUnescape v = Fail e →
                 ∃ err, ParseMagnetLink uri opts = Fail err
                        ∧ wraps err = ErrMalformedMagnetLink))
  ∧ (∀ opts, ∃ l, ParseMagnetLink "magnet:?tr=a%252Fb" opts = Ok l
                  ∧ Tr l = ["a/b"]).
Proof.
  assert (Hgen : ∀ uri opts u key values l,
    url.Parse lowerNonASCII uri = Ok u →
    ToLower (url.Scheme u) = "magnet" →
    url.Query u !! key = Some values →
    ToLower key = "tr" →
    ParseMagnetLink uri opts = Ok l →
    ∃ decoded pre post,
      Forall2 (λ v d, url.QueryUnescape v = Ok d) values decoded
      ∧ Tr l = pre ++ decoded ++ post).
  { intros uri opts u key values l Hu Hs Hq Hk.
    rewrite (ParseMagnetLink_loop _ _ _ Hu Hs).
    destruct (rangeOrder_visits _ _ _ Hq) as (before & after & ->).
    intros Hloop.
    apply forEach_step in Hloop as (s1 & s2 & _ & Hstep & Hrest).
    rewrite (parseParameter_tr _ _ _ _ Hk) in Hstep.
    apply forEach_parseTr in Hstep as (decoded & HF & HT).
    apply (extends_forEach (parseParameter (applyOptions opts))) in Hrest;
      [|intros ???; apply parseParameter_extends].
    destruct Hrest as [[post Hpost] _].
    exists decoded, (Tr s1), post. split; [done|].
    by rewrite Hpost, HT, <- app_assoc. }
  split; [|split].
  - intros opts.
    erewrite ParseMagnetLink_loop; [|reflexivity|reflexivity].
    set (q := url.Query _).
    pose proof (rangeOrder_perm q) as Hp.
    set (order := rangeOrder q) in *. clearbody order.
    vm_compute in Hp. symmetry in Hp.
    apply Permutation_length_2_inv in Hp as [->| ->]; reflexivity.
  - intros uri opts u key values Hu Hs Hq Hk. split; [by eauto|].
    intros v e Hv He.
    destruct (ParseMagnetLink uri opts) as [l|err] eqn:Hp.
    + exfalso.
      destruct (Hgen _ _ _ _ _ _ Hu Hs Hq Hk Hp) as (decoded & _ & _ & HF & _).
      apply list_elem_of_lookup in Hv as (i & Hi).
      destruct (Forall2_lookup_l _ _ _ _ _ HF Hi) as (d & _ & Hd).
      congruence.
    + exists err. split; [done|]. by eapply ParseMagnetLink_fail.
  - intros opts.
    erewrite ParseMagnetLink_loop; [|reflexivity|reflexivity].
    set (q := url.Query _).
    pose proof (rangeOrder_perm q) as Hp.
    set (order := rangeOrder q) in *. clearbody order.
    vm_compute in Hp. symmetry in Hp.
    apply Permutation_length_1_inv in Hp as ->.
    eexists. split; reflexivity.
Qed.

(** * Further properties *)

(** ** Splitting and joining *)

Lemma Join_cons x y rest sep :
  Join (x :: y :: rest) sep = x +:+ String sep (Join (y :: rest) sep).
Proof. reflexivity. Qed.

Lemma Join_Split s sep : Join (strings.Split s sep) sep = s.
Proof.
  induction s as [|c r IH]; simpl; [done|].
  destruct (Split_cons_inv r sep) as (x & xs & E). rewrite E in IH |- *.
  destruct (Ascii.eqb_spec c sep) as [->|Hne].
  - rewrite Join_cons, IH. done.
  - destruct xs as [|y ys]; simpl in *; [by rewrite IH|].
    by rewrite <- IH.
Qed.

Lemma Split_segments s sep :
  Forall (λ seg, string_count sep seg = 0) (strings.Split s sep).
Proof.
  induction s as [|c r IH]; simpl; [by repeat constructor|].
  destruct (Ascii.eqb c sep) eqn:Hc; [by constructor|].
  destruct (Split_cons_inv r sep) as (x & xs & E). rewrite E in IH |- *.
  apply Forall_cons in IH as [Hx Hxs]. constructor; [|done].
  simpl. by rewrite Hc.
Qed.

(** A byte other than the separator occurs in a string as often as in its
    segments together. *)
Lemma Split_count_other s sep c :
  Ascii.eqb sep c = false →
  Forall (λ seg, string_count c seg = 0) (strings.Split s sep) →
  string_count c s = 0.
Proof.
  intros Hsep. induction s as [|x r IH]; simpl; [done|].
  destruct (Ascii.eqb_spec x sep) as [->|Hne].
  - intros H. apply Forall_cons in H as [_ H]. rewrite Hsep. simpl. by apply IH.
  - destruct (strings.Split r sep) as [|y ys] eqn:E.
    + destruct (Split_cons_inv r sep) as (? & ? & ?). congruence.
    + intros H. apply Forall_cons in H as [Hy Hys]. simpl in Hy.
      destruct (Ascii.eqb x c); [done|]. simpl in *.
      apply IH. by constructor.
Qed.

Lemma substring_all s : String.substring 0 (String.length s) s = s.
Proof. induction s as [|c r IH]; simpl; [done|]. by rewrite IH. Qed.

(** ** Number ranges *)

(** X1: a string of two hyphen-free segments joined by a hyphen never
    parses without error: when both segments are integers the range is
    filled with them and both bounds included, but the error returned is
    the malformed-string error, and otherwise it is the error of the
    segment that is not an integer. *)
Theorem ParseNumRangeFromString_hyphen_pair (a b : string) :
  string_count "-" a = 0 → string_count "-" b = 0 →
  snd (ParseNumRangeFromString (a +:+ "-" +:+ b)) ≠ None
  ∧ (∀ x y, strconv.Atoi a = (x, None) → strconv.Atoi b = (y, None) →
            ParseNumRangeFromString (a +:+ "-" +:+ b)
            = ({| Start := x; End_ := y; IncludeStart := true; IncludeEnd := true |},
               Some NumRangeMalformed))
  ∧ (∀ x e, strconv.Atoi a = (x, Some e) →
            ParseNumRangeFromString (a +:+ "-" +:+ b)
            = (zeroNumRange, Some (NumRangeAtoi e))).
Proof.
  intros Ha Hb. unfold ParseNumRangeFromString.
  change (a +:+ "-" +:+ b) with (a +:+ String "-" b).
  rewrite Split_two by done.
  split; [|split].
  - destruct (strconv.Atoi a) as [? [?|]]; [done|].
    destruct (strconv.Atoi b) as [? [?|]]; done.
  - by intros x y -> ->.
  - by intros x e ->.
Qed.

Lemma ParseNumRangeFromString_ok s r :
  ParseNumRangeFromString s = (r, None) →
  string_count "-" s = 0
  ∧ ∃ n, strconv.Atoi s = (n, None) ∧ r = NewSingleNumRange n.
Proof.
  unfold ParseNumRangeFromString. pose proof (Split_length s "-") as Hl.
  destruct (strings.Split s "-") as [|x [|y [|z rest]]]; simpl in Hl; try done.
  - destruct (strconv.Atoi s) as [n [e|]]; [done|].
    intros [= <-]. split; [lia|]. by exists n.
  - destruct (strconv.Atoi x) as [? [?|]]; [done|].
    destruct (strconv.Atoi y) as [? [?|]]; done.
Qed.

(** X2: [ParseNumRangeFromString] returns a nil error exactly for a
    hyphen-free string that [strconv.Atoi] accepts, and the range is then
    [NewSingleNumRange] of that integer: a range with two different
    bounds is never returned without error. *)
Theorem ParseNumRangeFromString_success (s : string) (r : NumRange) :
  ParseNumRangeFromString s = (r, None)
  ↔ string_count "-" s = 0
    ∧ ∃ n, strconv.Atoi s = (n, None) ∧ r = NewSingleNumRange n.
Proof.
  split; [apply ParseNumRangeFromString_ok|].
  intros (Hs & n & Hn & ->). unfold ParseNumRangeFromString.
  by rewrite Split_no_sep, Hn.
Qed.

(** ** URNs *)

Lemma Split_three_inv s sep a b c :
  strings.Split s sep = [a; b; c] →
  s = a +:+ String sep (b +:+ String sep c)
  ∧ string_count sep a = 0 ∧ string_count sep b = 0 ∧ string_count sep c = 0.
Proof.
  intros E. pose proof (Join_Split s sep) as HJ.
  pose proof (Split_segments s sep) as HS. rewrite E in HJ, HS.
  apply Forall_cons in HS as [Ha HS]. apply Forall_cons in HS as [Hb HS].
  apply Forall_cons in HS as [Hc _]. by rewrite <- HJ.
Qed.

(** X3: a string that [ParseUrn] accepts is a scheme that lowers to urn,
    a colon, the namespace identifier, a colon and the namespace-specific
    string, in which the three parts hold no colon; so a parsed Urn never
    has a colon in either field, and when the scheme is written urn the
    rendering of the result is the input. *)
Theorem ParseUrn_success (s : string) (u : Urn) :
  ParseUrn s = (u, None) →
  string_count ":" (Nid u) = 0 ∧ string_count ":" (Nss u) = 0
  ∧ ∃ scheme, ToLower scheme = "urn" ∧ string_count ":" scheme = 0
              ∧ s = scheme +:+ ":" +:+ Nid u +:+ ":" +:+ Nss u
              ∧ (scheme = "urn" → Urn_String u = s).
Proof.
  unfold ParseUrn.
  destruct (strings.Split s ":") as [|a [|b [|c [|d rest]]]] eqn:E; try done.
  destruct (String.eqb_spec (ToLower a) "urn") as [Ha|]; [|done].
  simpl. intros [= <-]. simpl.
  apply Split_three_inv in E as (-> & Hca & Hcb & Hcc).
  split; [done|]. split; [done|].
  exists a. split; [done|]. split; [done|]. split; [done|].
  by intros ->.
Qed.

(** X4: the rendering of a Urn with a colon in its namespace identifier
    or in its namespace-specific string does not parse: it has more than
    three colon-delimited segments. *)
Theorem ParseUrn_String_colon (u : Urn) :
  (0 < string_count ":" (Nid u) + string_count ":" (Nss u))%nat →
  ParseUrn (Urn_String u) = (zeroUrn, Some (ErrMalformedUrn UrnBare)).
Proof.
  intros H. unfold ParseUrn.
  pose proof (Split_length (Urn_String u) ":") as Hl.
  assert (Hc : string_count ":" (Urn_String u)
               = (2 + string_count ":" (Nid u) + string_count ":" (Nss u))%nat).
  { unfold Urn_String.
    change ("urn:" +:+ Nid u +:+ ":" +:+ Nss u)
      with ("urn:" +:+ (Nid u +:+ String ":" (Nss u))).
    rewrite !string_count_app. simpl. lia. }
  rewrite Hc in Hl.
  destruct (strings.Split (Urn_String u) ":") as [|a [|b [|c [|d rest]]]];
    simpl in Hl; try done.
  lia.
Qed.

(** ** Keys of exact topics *)

Lemma Atoi_empty : snd (strconv.Atoi EmptyString) ≠ None.
Proof. done. Qed.

Lemma HasPrefix_xt_inv key :
  strings.HasPrefix key "xt" = true → ∃ rest, key = String "x" (String "t" rest).
Proof.
  destruct key as [|k1 [|k2 rest]]; unfold strings.HasPrefix;
    cbn [String.prefix]; try done.
  - by destruct (ascii_dec "x" k1).
  - destruct (ascii_dec "x" k1) as [<-|]; [|done].
    destruct (ascii_dec "t" k2) as [<-|]; [|done]. eauto.
Qed.

(** X5: a key is an exact-topic key exactly when it is xt, or xt, a dot
    and a string that [strconv.Atoi] accepts; so xt followed by a dot and
    the rendering of a natural number is one, and xt followed by a dot
    alone is not. *)
Theorem checkIsMagnetLinkXTParameter_spec (key : string) :
  (checkIsMagnetLinkXTParameter key = true
   ↔ key = "xt" ∨ ∃ n, key = "xt." +:+ n ∧ snd (strconv.Atoi n) = None)
  ∧ (∀ n, (0 ≤ n < 2 ^ 63)%Z →
          checkIsMagnetLinkXTParameter ("xt." +:+ strconv.Itoa n) = true).
Proof.
  assert (Hdot : ∀ n, checkIsMagnetLinkXTParameter ("xt." +:+ n)
                      = bool_decide (snd (strconv.Atoi n) = None)).
  { intros n. destruct n as [|c r]; [done|].
    set (k0 := "xt." +:+ String c r).
    assert (H1 : strings.HasPrefix k0 "xt" = true) by reflexivity.
    assert (H2 : String.eqb k0 "xt" = false) by reflexivity.
    assert (H3 : (String.length k0 <? 4)%nat = false) by reflexivity.
    assert (H4 : String.get 2 k0 = Some "."%char) by reflexivity.
    assert (H5 : String.substring 3 (String.length k0 - 3) k0 = String c r).
    { change (String c (String.substring 0 (String.length r) r) = String c r).
      by rewrite substring_all. }
    unfold checkIsMagnetLinkXTParameter. rewrite H1, H2, H3, H4, H5.
    rewrite bool_decide_eq_true_2 by done. simpl negb. cbv iota.
    destruct (strconv.Atoi (String c r)) as [? [?|]]; symmetry;
      [apply bool_decide_eq_false_2|apply bool_decide_eq_true_2]; done. }
  split.
  - split.
    + intros H.
      assert (Hp : strings.HasPrefix key "xt" = true).
      { unfold checkIsMagnetLinkXTParameter in H.
        by destruct (strings.HasPrefix key "xt"). }
      destruct (HasPrefix_xt_inv _ Hp) as (rest & ->).
      destruct rest as [|k3 r]; [by left|]. right.
      destruct (Ascii.eqb_spec k3 ".") as [->|Hne].
      * exists r. split; [done|].
        change (String "x" (String "t" (String "." r))) with ("xt." +:+ r) in H.
        rewrite Hdot in H. by apply bool_decide_eq_true in H.
      * exfalso. unfold checkIsMagnetLinkXTParameter in H.
        rewrite Hp in H. simpl negb in H. cbv iota in H.
        change (String.eqb (String "x" (String "t" (String k3 r))) "xt")
          with false in H. cbv iota in H.
        destruct r as [|k4 r]; [done|].
        change ((String.length (String "x" (String "t" (String k3 (String k4 r)))) <? 4)%nat)
          with false in H. cbv iota in H.
        change (String.get 2 (String "x" (String "t" (String k3 (String k4 r)))))
          with (Some k3) in H.
        rewrite bool_decide_eq_false_2 in H by congruence. done.
    + intros [->|(n & -> & Hn)]; [done|].
      rewrite Hdot. by apply bool_decide_eq_true.
  - intros n Hn. rewrite Hdot, Atoi_Itoa by done. done.
Qed.

Lemma isUnknownKey_xt_prefix (key : string) :
  strings.HasPrefix key "xt" = true →
  checkIsMagnetLinkXTParameter key = false →
  isUnknownKey key = true.
Proof.
  intros H Hc. destruct (HasPrefix_xt_inv _ H) as (rest & ->).
  unfold isUnknownKey. rewrite Hc. reflexivity.
Qed.

(** ** Torrent specialization, further *)

Lemma hex_DecodeString_ok_bound n : ∀ s bs,
  (String.length s ≤ n)%nat → hex.DecodeString s = (bs, None) →
  String.length s = (2 * length bs)%nat ∧ string_forallb url.ishex s = true.
Proof.
  induction n as [|n IH]; intros s bs Hn.
  - destruct s; [|simpl in Hn; lia]. by intros [= <-].
  - destruct s as [|p [|q r]].
    + by intros [= <-].
    + simpl. by destruct (hex.fromHexChar p).
    + cbn [hex.DecodeString]. unfold url.ishex. cbn [string_forallb].
      destruct (hex.fromHexChar p) as [a|]; [|done].
      destruct (hex.fromHexChar q) as [b|]; [|done].
      destruct (hex.DecodeString r) as [bs' e] eqn:Hr.
      intros [= <- ->]. simpl in Hn.
      destruct (IH r bs' ltac:(lia) Hr) as [Hl Hh].
      split; [simpl; lia|]. exact Hh.
Qed.

Lemma hex_DecodeString_ok s bs :
  hex.DecodeString s = (bs, None) →
  String.length s = (2 * length bs)%nat ∧ string_forallb url.ishex s = true.
Proof. by apply (hex_DecodeString_ok_bound (String.length s)). Qed.

Lemma decodesAs_type nss h :
  decodesAs nss h → Type_ h = HashSHA1 ∨ Type_ h = HashSHA256.
Proof.
  intros [(_ & E & _)|[(_ & E & _)|[(_ & E & _)|(_ & E & _)]]]; auto.
Qed.

Lemma decodesAs_hex nss h :
  decodesAs nss h →
  (String.length nss = 40%nat →
   Type_ h = HashSHA1 ∧ length (Value h) = 20%nat
   ∧ string_forallb url.ishex nss = true)
  ∧ (String.length nss = 64%nat →
     Type_ h = HashSHA256 ∧ length (Value h) = 32%nat
     ∧ string_forallb url.ishex nss = true).
Proof.
  intros [(L & E & D)|[(L & E & D)|[(L & E & D)|(L & E & D)]]];
    split; intros L'; rewrite L in L'; try discriminate;
    apply hex_DecodeString_ok in D as [Hl Hh]; (split; [done|]);
    (split; [lia|done]).
Qed.

(** X7: a successful [AsTorrent] returns the link it was given together
    with one hash for each exact topic whose namespace lowers to btih, in
    their order, each of type sha1 or sha256; an exact topic of another
    namespace adds nothing. *)
Theorem AsTorrent_success (l : MagnetLink) (t : TorrentMagnetLink) :
  AsTorrent l = Ok t →
  MagnetLink_ t = l
  ∧ length (InfoHashs t) = length (List.filter isBtih (Xt l))
  ∧ Forall (λ h, Type_ h = HashSHA1 ∨ Type_ h = HashSHA256) (InfoHashs t).
Proof.
  intros Ht. apply AsTorrent_ok in Ht as (Hl & _ & Hc).
  apply collectInfoHash_ok in Hc as (new & E & HF). simpl in E. subst new.
  split; [done|]. split.
  - symmetry. by eapply Forall2_length.
  - clear Hl. induction HF as [|xt h xts hs Hh _ IH]; constructor; [|done].
    by eapply decodesAs_type.
Qed.

(** X8: in the result of a successful [AsTorrent], a btih string of 40
    bytes is made of hexadecimal digits and gives a sha1 hash of 20
    bytes, and one of 64 bytes is made of hexadecimal digits and gives a
    sha256 hash of 32 bytes. *)
Theorem AsTorrent_hex_sizes (l : MagnetLink) (t : TorrentMagnetLink) :
  AsTorrent l = Ok t →
  Forall2 (λ xt h,
             (String.length (Nss xt) = 40%nat →
              Type_ h = HashSHA1 ∧ length (Value h) = 20%nat
              ∧ string_forallb url.ishex (Nss xt) = true)
             ∧ (String.length (Nss xt) = 64%nat →
                Type_ h = HashSHA256 ∧ length (Value h) = 32%nat
                ∧ string_forallb url.ishex (Nss xt) = true))
          (List.filter isBtih (Xt l)) (InfoHashs t).
Proof.
  intros Ht. apply AsTorrent_ok in Ht as (_ & _ & Hc).
  apply collectInfoHash_ok in Hc as (new & E & HF). simpl in E. subst new.
  eapply Forall2_impl; [exact HF|]. intros xt h. apply decodesAs_hex.
Qed.

(** X9: a btih exact topic of 40 or 64 bytes with a byte that is not a
    hexadecimal digit makes [AsTorrent] fail with an error that wraps
    [ErrMalformedMagnetLink], wherever it stands in the list. *)
Theorem AsTorrent_bad_hex (l : MagnetLink) (xt : Urn) :
  xt ∈ Xt l → isBtih xt = true →
  String.length (Nss xt) = 40%nat ∨ String.length (Nss xt) = 64%nat →
  string_forallb url.ishex (Nss xt) = false →
  ∃ e, AsTorrent l = Fail e ∧ wraps e = ErrMalformedMagnetLink.
Proof.
  intros Hin Hb Hlen Hhex.
  destruct (forEach collectInfoHash (Xt l) []) as [hs|e] eqn:Hc.
  - exfalso. apply collectInfoHash_ok in Hc as (new & _ & HF).
    assert (Hin' : xt ∈ List.filter isBtih (Xt l)).
    { apply list_elem_of_In, filter_In. split; [by apply list_elem_of_In|done]. }
    apply list_elem_of_lookup in Hin' as (i & Hi).
    destruct (Forall2_lookup_l _ _ _ _ _ HF Hi) as (h & _ & Hh).
    apply decodesAs_hex in Hh as [H40 H64].
    destruct Hlen as [L|L]; [apply H40 in L|apply H64 in L];
      destruct L as (_ & _ & L); congruence.
  - exists e. unfold AsTorrent. rewrite Hc. split; [done|].
    by eapply collectInfoHash_fail.
Qed.

Lemma filter_isBtih_nil xts :
  List.filter isBtih xts = [] ↔ Forall (λ xt, isBtih xt = false) xts.
Proof.
  induction xts as [|xt xts IH]; simpl; [by split; [constructor|]|].
  destruct (isBtih xt) eqn:Hb.
  - split; [done|]. intros H. apply Forall_cons in H as [? _]. congruence.
  - rewrite IH. split; [by constructor|]. by intros [_ ?]%Forall_cons.
Qed.

(** X10: when [AsTorrent] fails, its error wraps [ErrWrongMagnetLinkType]
    exactly when no exact topic has a namespace that lowers to btih, and
    wraps [ErrMalformedMagnetLink] otherwise: one btih topic is enough
    for a failure to be reported as malformed. *)
Theorem AsTorrent_failure_kind (l : MagnetLink) (e : MagnetError) :
  AsTorrent l = Fail e →
  (wraps e = ErrWrongMagnetLinkType
   ↔ Forall (λ xt, isBtih xt = false) (Xt l))
  ∧ (wraps e = ErrMalformedMagnetLink
     ↔ ∃ xt, xt ∈ Xt l ∧ isBtih xt = true).
Proof.
  intros He.
  assert (Hdec : wraps e = ErrWrongMagnetLinkType
                 ↔ Forall (λ xt, isBtih xt = false) (Xt l)).
  { unfold AsTorrent in He.
    destruct (forEach collectInfoHash (Xt l) []) as [hs|e'] eqn:Hc.
    - apply collectInfoHash_ok in Hc as (new & E & HF). simpl in E. subst new.
      destruct hs as [|h hs]; simpl in He; [|done]. injection He as <-.
      apply Forall2_nil_inv_r in HF. apply filter_isBtih_nil in HF. by split.
    - injection He as <-. pose proof (collectInfoHash_fail _ _ _ Hc) as Hw.
      split; [intros H; congruence|].
      intros Hall. exfalso. apply filter_isBtih_nil in Hall.
      rewrite (collectInfoHash_complete (Xt l) [] []) in Hc; [done|].
      rewrite Hall. constructor. }
  split; [exact Hdec|].
  destruct (AsTorrent_fail _ _ He) as [Hm| ->].
  - split; [intros _|done].
    destruct (List.filter isBtih (Xt l)) as [|xt rest] eqn:Hf.
    + apply filter_isBtih_nil, Hdec in Hf. congruence.
    + assert (Hin : In xt (List.filter isBtih (Xt l))) by (rewrite Hf; by left).
      apply filter_In in Hin as [Hin Hb].
      exists xt. split; [by apply list_elem_of_In|done].
  - simpl. split; [done|]. intros (xt & Hin & Hb). exfalso.
    destruct Hdec as [Hd _]. specialize (Hd eq_refl).
    rewrite Forall_forall in Hd. specialize (Hd xt Hin). congruence.
Qed.

(** ** Errors of the parsers *)

Lemma parseParameter_reason option kv l e :
  parseParameter option kv l = Fail e →
  match reason e with
  | InvalidXt _ | InvalidXl _ | InvalidAs _ | InvalidTr _ | InvalidSo _
  | InvalidExperimental => True
  | UnknownParameters => Strict option = true
  | _ => False
  end.
Proof.
  unfold parseParameter.
  repeat match goal with
         | |- context [if ?b then _ else _] => destruct b eqn:?
         end;
    try done; try (by intros [= <-]);
    apply (forEach_fail _ (λ e, match reason e with
                                | InvalidXt _ | InvalidXl _ | InvalidAs _
                                | InvalidTr _ | InvalidSo _
                                | InvalidExperimental => True
                                | UnknownParameters => Strict option = true
                                | _ => False
                                end)).
  - intros v s e'. unfold parseXt.
    destruct (ParseUrn v) as [? [?|]]; [|done]. by intros [= <-].
  - intros v s e'. unfold parseXl.
    destruct (strconv.Atoi v) as [? [?|]]; [|done]. by intros [= <-].
  - intros v s e'. unfold parseAs.
    destruct (url.QueryUnescape v); [done|]. by intros [= <-].
  - intros v s e'. unfold parseTr.
    destruct (url.QueryUnescape v); [done|]. by intros [= <-].
  - intros v s e'. unfold parseSo.
    apply (forEach_fail _ (λ e, match reason e with
                                | InvalidXt _ | InvalidXl _ | InvalidAs _
                                | InvalidTr _ | InvalidSo _
                                | InvalidExperimental => True
                                | UnknownParameters => Strict option = true
                                | _ => False
                                end)).
    intros x m e''. unfold parseSoSegment.
    destruct (ParseNumRangeFromString x) as [? [?|]]; [|done]. by intros [= <-].
Qed.

(** X11: every error of [ParseMagnetLink] wraps [ErrMalformedMagnetLink];
    it carries an error of [url.Parse] exactly when [url.Parse] failed
    with it, the invalid-scheme message only when the URI parsed and its
    scheme does not lower to magnet, the unknown-parameters message only
    in strict mode, and never a message of [AsTorrent]. *)
Theorem ParseMagnetLink_failure (uri : string)
    (opts : list (option MagnetLinkParseOption)) (e : MagnetError) :
  ParseMagnetLink uri opts = Fail e →
  wraps e = ErrMalformedMagnetLink
  ∧ match reason e with
    | ReasonURL err => url.Parse lowerNonASCII uri = Fail err
    | InvalidScheme =>
        ∃ u, url.Parse lowerNonASCII uri = Ok u ∧ ToLower (url.Scheme u) ≠ "magnet"
    | UnknownParameters => Strict (applyOptions opts) = true
    | BadLength | CannotDecode _ | NoTorrent => False
    | _ => ∃ u, url.Parse lowerNonASCII uri = Ok u ∧ ToLower (url.Scheme u) = "magnet"
    end.
Proof.
  intros He. split; [by eapply ParseMagnetLink_fail|].
  unfold ParseMagnetLink in He.
  destruct (url.Parse lowerNonASCII uri) as [u|err]; [|by injection He as <-].
  destruct (String.eqb_spec (ToLower (url.Scheme u)) "magnet") as [Hs|Hs];
    simpl in He; [|injection He as <-; simpl; eauto].
  assert (Hr := forEach_fail _ (λ e, match reason e with
                                | InvalidXt _ | InvalidXl _ | InvalidAs _
                                | InvalidTr _ | InvalidSo _
                                | InvalidExperimental => True
                                | UnknownParameters => Strict (applyOptions opts) = true
                                | _ => False
                                end) _ _ _
              (λ kv s e', parseParameter_reason (applyOptions opts) kv s e') He).
  cbv beta in Hr. revert Hr.
  destruct (reason e); simpl; intros Hr; try done; by exists u.
Qed.

(** X12: when [ParseTorrentMagnetLink] fails with an error that wraps
    [ErrWrongMagnetLinkType], the URI did parse as a magnet link, and
    that link has no exact topic whose namespace lowers to btih; every
    other error wraps [ErrMalformedMagnetLink]. *)
Theorem ParseTorrentMagnetLink_failure (uri : string)
    (opts : list (option MagnetLinkParseOption)) (e : MagnetError) :
  ParseTorrentMagnetLink uri opts = Fail e →
  (wraps e = ErrMalformedMagnetLink ∨ wraps e = ErrWrongMagnetLinkType)
  ∧ (wraps e = ErrWrongMagnetLinkType →
     ∃ l, ParseMagnetLink uri opts = Ok l
          ∧ Forall (λ xt, isBtih xt = false) (Xt l)).
Proof.
  unfold ParseTorrentMagnetLink.
  destruct (ParseMagnetLink uri opts) as [l|e'] eqn:Hp.
  - intros He. split.
    + destruct (AsTorrent_fail _ _ He) as [?| ->]; auto.
    + intros Hw. exists l. split; [done|].
      unfold AsTorrent in He.
      destruct (forEach collectInfoHash (Xt l) []) as [hs|e''] eqn:Hc.
      * apply collectInfoHash_ok in Hc as (new & E & HF). simpl in E. subst new.
        destruct hs as [|h hs]; simpl in He; [|done].
        apply Forall2_nil_inv_r in HF. by apply filter_isBtih_nil.
      * injection He as <-. apply collectInfoHash_fail in Hc. congruence.
  - intros [= <-]. apply ParseMagnetLink_fail in Hp. split; [auto|congruence].
Qed.

(** ** What the loop keeps *)

Lemma mapGrows_refl m : mapGrows m m.
Proof. intros k vs H. exists []. by rewrite app_nil_r. Qed.

Lemma mapGrows_trans m1 m2 m3 : mapGrows m1 m2 → mapGrows m2 m3 → mapGrows m1 m3.
Proof.
  intros H1 H2 k vs H. destruct (H1 _ _ H) as (p1 & H').
  destruct (H2 _ _ H') as (p2 & H''). exists (p1 ++ p2). by rewrite H'', app_assoc.
Qed.

Lemma mapGrows_appendAt m key vs : mapGrows m (url.appendAt m key vs).
Proof.
  intros k ws H. unfold url.appendAt.
  destruct (decide (key = k)) as [->|Hne].
  - rewrite lookup_insert_eq, H. simpl. by exists vs.
  - rewrite lookup_insert_ne by done. exists []. by rewrite app_nil_r.
Qed.

Lemma grows_refl l : grows l l.
Proof. unfold grows. repeat split; try reflexivity; apply mapGrows_refl. Qed.

Lemma grows_trans l1 l2 l3 : grows l1 l2 → grows l2 l3 → grows l1 l3.
Proof.
  unfold grows.
  intros (A1 & A2 & A3 & A4 & A5 & A6 & A7 & A8 & A9 & A10 & A11)
         (B1 & B2 & B3 & B4 & B5 & B6 & B7 & B8 & B9 & B10 & B11).
  repeat split; try (etrans; eassumption); eapply mapGrows_trans; eassumption.
Qed.

Ltac grows_step :=
  unfold grows; simpl;
  repeat split;
  first [ reflexivity | by apply prefix_app_r | apply mapGrows_refl
        | apply mapGrows_appendAt ].

Lemma grows_forEach {A} (body : A → MagnetLink → result MagnetError MagnetLink)
    xs l l' :
  (∀ x s s', body x s = Ok s' → grows s s') →
  forEach body xs l = Ok l' → grows l l'.
Proof.
  intros H. apply (forEach_ok body grows); auto using grows_refl.
  apply grows_trans.
Qed.

Lemma parseXt_grows v l l' : parseXt v l = Ok l' → grows l l'.
Proof.
  unfold parseXt. destruct (ParseUrn v) as [u [e|]]; [done|].
  intros [= <-]. grows_step.
Qed.

Lemma parseXl_grows v l l' : parseXl v l = Ok l' → grows l l'.
Proof.
  unfold parseXl. destruct (strconv.Atoi v) as [n [e|]]; [done|].
  intros [= <-]. grows_step.
Qed.

Lemma parseAs_grows v l l' : parseAs v l = Ok l' → grows l l'.
Proof.
  unfold parseAs. destruct (url.QueryUnescape v); [|done].
  intros [= <-]. grows_step.
Qed.

Lemma parseTr_grows v l l' : parseTr v l = Ok l' → grows l l'.
Proof.
  unfold parseTr. destruct (url.QueryUnescape v); [|done].
  intros [= <-]. grows_step.
Qed.

Lemma parseSo_grows v l l' : parseSo v l = Ok l' → grows l l'.
Proof.
  unfold parseSo. apply grows_forEach. intros s m m'.
  unfold parseSoSegment. destruct (ParseNumRangeFromString s) as [r [e|]]; [done|].
  intros [= <-]. grows_step.
Qed.

Lemma parseParameter_grows option kv l l' :
  parseParameter option kv l = Ok l' → grows l l'.
Proof.
  unfold parseParameter.
  repeat match goal with
         | |- context [if ?b then _ else _] => destruct b
         end;
    try done;
    try (intros [= <-]; grows_step);
    try (apply grows_forEach;
         eauto using parseXt_grows, parseXl_grows, parseAs_grows,
                     parseTr_grows, parseSo_grows).
Qed.

(** When the parse succeeds, the entry of a key of the query was handled
    by the loop body in some state, and the link returned grew out of the
    state it left. *)
Lemma ParseMagnetLink_visit uri opts u key values l :
  url.Parse lowerNonASCII uri = Ok u →
  ToLower (url.Scheme u) = "magnet" →
  url.Query u !! key = Some values →
  ParseMagnetLink uri opts = Ok l →
  ∃ s1 s2, parseParameter (applyOptions opts) (key, values) s1 = Ok s2
           ∧ grows s2 l.
Proof.
  intros Hu Hs Hq. rewrite (ParseMagnetLink_loop _ _ _ Hu Hs).
  destruct (rangeOrder_visits _ _ _ Hq) as (before & after & ->).
  intros Hloop. apply forEach_step in Hloop as (s1 & s2 & _ & Hstep & Hrest).
  exists s1, s2. split; [done|].
  eapply (grows_forEach (parseParameter (applyOptions opts))); [|exact Hrest].
  intros ???. apply parseParameter_grows.
Qed.

(** A parse in which the body rejects the entry of a key fails. *)
Lemma ParseMagnetLink_reject uri opts u key values :
  url.Parse lowerNonASCII uri = Ok u →
  ToLower (url.Scheme u) = "magnet" →
  url.Query u !! key = Some values →
  (∀ s1 s2, parseParameter (applyOptions opts) (key, values) s1 ≠ Ok s2) →
  ∃ e, ParseMagnetLink uri opts = Fail e ∧ wraps e = ErrMalformedMagnetLink.
Proof.
  intros Hu Hs Hq Hrej.
  destruct (ParseMagnetLink uri opts) as [l|e] eqn:Hp.
  - destruct (ParseMagnetLink_visit _ _ _ _ _ _ Hu Hs Hq Hp) as (s1 & s2 & H & _).
    by destruct (Hrej s1 s2).
  - exists e. split; [done|]. by eapply ParseMagnetLink_fail.
Qed.

Lemma prefix_middle {A} (pre vs : list A) full :
  pre ++ vs `prefix_of` full → ∃ post, full = pre ++ vs ++ post.
Proof. intros [post ->]. exists post. by rewrite app_assoc. Qed.

Lemma forEach_each {E A S} (body : A → S → result E S) xs : ∀ s s',
  forEach body xs s = Ok s' →
  ∀ x, x ∈ xs → ∃ s1 s2, body x s1 = Ok s2.
Proof.
  induction xs as [|y ys IH]; intros s s' H x Hx; [by apply elem_of_nil in Hx|].
  simpl in H. destruct (body y s) as [s1|] eqn:Hy; [|done].
  apply elem_of_cons in Hx as [->|Hx]; eauto.
Qed.

(** X13: when the parse succeeds, the values of a key that lowers to dn,
    xs, kt or mt stand in the display names, exact sources, keyword
    topics or manifest topics as they are, in order and next to each
    other. *)
Theorem ParseMagnetLink_verbatim (uri : string)
    (opts : list (option MagnetLinkParseOption)) (u : url.URL)
    (key : string) (values : list string) (l : MagnetLink) :
  url.Parse lowerNonASCII uri = Ok u →
  ToLower (url.Scheme u) = "magnet" →
  url.Query u !! key = Some values →
  ParseMagnetLink uri opts = Ok l →
  (ToLower key = "dn" → ∃ pre post, Dn l = pre ++ values ++ post)
  ∧ (ToLower key = "xs" → ∃ pre post, Xs l = pre ++ values ++ post)
  ∧ (ToLower key = "kt" → ∃ pre post, Kt l = pre ++ values ++ post)
  ∧ (ToLower key = "mt" → ∃ pre post, Mt l = pre ++ values ++ post).
Proof.
  intros Hu Hs Hq Hp.
  destruct (ParseMagnetLink_visit _ _ _ _ _ _ Hu Hs Hq Hp)
    as (s1 & s2 & Hstep & Hg).
  unfold grows in Hg.
  destruct Hg as (G1 & _ & _ & _ & G5 & G6 & G7 & _).
  unfold parseParameter in Hstep. simpl fst in Hstep. simpl snd in Hstep.
  repeat split; intros Hk; rewrite Hk in Hstep; simpl in Hstep;
    injection Hstep as <-; simpl in *.
  - exists (Dn s1). by apply prefix_middle.
  - exists (Xs s1). by apply prefix_middle.
  - exists (Kt s1). by apply prefix_middle.
  - exists (Mt s1). by apply prefix_middle.
Qed.

Lemma checkIsMagnetLinkXTParameter_not_dn key :
  checkIsMagnetLinkXTParameter key = true → String.eqb key "dn" = false.
Proof.
  intros H.
  assert (Hp : strings.HasPrefix key "xt" = true).
  { unfold checkIsMagnetLinkXTParameter in H.
    by destruct (strings.HasPrefix key "xt"). }
  by destruct (HasPrefix_xt_inv _ Hp) as (rest & ->).
Qed.

Lemma parseParameter_xt option key values l :
  checkIsMagnetLinkXTParameter (ToLower key) = true →
  parseParameter option (key, values) l = forEach parseXt values l.
Proof.
  intros H. unfold parseParameter. simpl fst. simpl snd.
  by rewrite (checkIsMagnetLinkXTParameter_not_dn _ H), H.
Qed.

Lemma forEach_parseXt values : ∀ l l',
  forEach parseXt values l = Ok l' →
  ∃ urns, Forall2 (λ v urn, ParseUrn v = (urn, None)) values urns
          ∧ Xt l' = Xt l ++ urns.
Proof.
  induction values as [|v vs IH]; intros l l'; simpl.
  - intros [= <-]. exists []. split; [constructor|by rewrite app_nil_r].
  - unfold parseXt at 1.
    destruct (ParseUrn v) as [urn [e|]] eqn:Hv; [done|].
    intros H. destruct (IH _ _ H) as (us & HF & HT).
    exists (urn :: us). split; [by constructor|].
    rewrite HT. simpl. by rewrite <- app_assoc.
Qed.

(** X14: when the parse succeeds, every value of an exact-topic key (xt,
    or xt, a dot and an integer, in any case) is a string that [ParseUrn]
    accepts, and the Urns stand in the exact topics in the order of the
    values and next to each other; one value that [ParseUrn] rejects
    fails the whole parse with an error that wraps
    [ErrMalformedMagnetLink]. *)
Theorem ParseMagnetLink_exact_topics (uri : string)
    (opts : list (option MagnetLinkParseOption)) (u : url.URL)
    (key : string) (values : list string) :
  url.Parse lowerNonASCII uri = Ok u →
  ToLower (url.Scheme u) = "magnet" →
  url.Query u !! key = Some values →
  checkIsMagnetLinkXTParameter (ToLower key) = true →
  (∀ l, ParseMagnetLink uri opts = Ok l →
        ∃ urns pre post,
          Forall2 (λ v urn, ParseUrn v = (urn, None)) values urns
          ∧ Xt l = pre ++ urns ++ post)
  ∧ (∀ v, v ∈ values → snd (ParseUrn v) ≠ None →
          ∃ e, ParseMagnetLink uri opts = Fail e
               ∧ wraps e = ErrMalformedMagnetLink).
Proof.
  intros Hu Hs Hq Hk. split.
  - intros l Hp.
    destruct (ParseMagnetLink_visit _ _ _ _ _ _ Hu Hs Hq Hp)
      as (s1 & s2 & Hstep & Hg).
    rewrite (parseParameter_xt _ _ _ _ Hk) in Hstep.
    apply forEach_parseXt in Hstep as (urns & HF & HX).
    destruct Hg as (_ & G & _). rewrite HX in G.
    apply prefix_middle in G as (post & G). by exists urns, (Xt s1), post.
  - intros v Hv Hbad.
    apply (ParseMagnetLink_reject _ _ _ _ _ Hu Hs Hq).
    intros s1 s2. rewrite (parseParameter_xt _ _ _ _ Hk). intros H.
    apply forEach_parseXt in H as (urns & HF & _).
    apply list_elem_of_lookup in Hv as (i & Hi).
    destruct (Forall2_lookup_l _ _ _ _ _ HF Hi) as (urn & _ & Hurn).
    by rewrite Hurn in Hbad.
Qed.

Lemma parseParameter_xl option key values l :
  ToLower key = "xl" →
  parseParameter option (key, values) l = forEach parseXl values l.
Proof. intros H. unfold parseParameter. simpl fst. by rewrite H. Qed.

Lemma forEach_parseXl values : ∀ l l',
  forEach parseXl values l = Ok l' →
  ∃ nums, Forall2 (λ v n, strconv.Atoi v = (n, None)) values nums
          ∧ Xl l' = Xl l ++ nums.
Proof.
  induction values as [|v vs IH]; intros l l'; simpl.
  - intros [= <-]. exists []. split; [constructor|by rewrite app_nil_r].
  - unfold parseXl at 1.
    destruct (strconv.Atoi v) as [n [e|]] eqn:Hv; [done|].
    intros H. destruct (IH _ _ H) as (ns & HF & HT).
    exists (n :: ns). split; [by constructor|].
    rewrite HT. simpl. by rewrite <- app_assoc.
Qed.

(** X15: when the parse succeeds, every value of a key that lowers to xl
    is a string that [strconv.Atoi] accepts, and the integers stand in
    the exact lengths in the order of the values and next to each other;
    one value that is not an integer fails the whole parse with an error
    that wraps [ErrMalformedMagnetLink]. *)
Theorem ParseMagnetLink_exact_lengths (uri : string)
    (opts : list (option MagnetLinkParseOption)) (u : url.URL)
    (key : string) (values : list string) :
  url.Parse lowerNonASCII uri = Ok u →
  ToLower (url.Scheme u) = "magnet" →
  url.Query u !! key = Some values →
  ToLower key = "xl" →
  (∀ l, ParseMagnetLink uri opts = Ok l →
        ∃ nums pre post,
          Forall2 (λ v n, strconv.Atoi v = (n, None)) values nums
          ∧ Xl l = pre ++ nums ++ post)
  ∧ (∀ v, v ∈ values → snd (strconv.Atoi v) ≠ None →
          ∃ e, ParseMagnetLink uri opts = Fail e
               ∧ wraps e = ErrMalformedMagnetLink).
Proof.
  intros Hu Hs Hq Hk. split.
  - intros l Hp.
    destruct (ParseMagnetLink_visit _ _ _ _ _ _ Hu Hs Hq Hp)
      as (s1 & s2 & Hstep & Hg).
    rewrite (parseParameter_xl _ _ _ _ Hk) in Hstep.
    apply forEach_parseXl in Hstep as (nums & HF & HX).
    destruct Hg as (_ & _ & G & _). rewrite HX in G.
    apply prefix_middle in G as (post & G). by exists nums, (Xl s1), post.
  - intros v Hv Hbad.
    apply (ParseMagnetLink_reject _ _ _ _ _ Hu Hs Hq).
    intros s1 s2. rewrite (parseParameter_xl _ _ _ _ Hk). intros H.
    apply forEach_parseXl in H as (nums & HF & _).
    apply list_elem_of_lookup in Hv as (i & Hi).
    destruct (Forall2_lookup_l _ _ _ _ _ HF Hi) as (n & _ & Hn).
    by rewrite Hn in Hbad.
Qed.

Lemma parseParameter_as option key values l :
  ToLower key = "as" →
  parseParameter option (key, values) l = forEach parseAs values l.
Proof. intros H. unfold parseParameter. simpl fst. by rewrite H. Qed.

Lemma forEach_parseAs values : ∀ l l',
  forEach parseAs values l = Ok l' →
  ∃ decoded, Forall2 (λ v d, url.QueryUnescape v = Ok d) values decoded
             ∧ As l' = As l ++ decoded.
Proof.
  induction values as [|v vs IH]; intros l l'; simpl.
  - intros [= <-]. exists []. split; [constructor|by rewrite app_nil_r].
  - unfold parseAs at 1.
    destruct (url.QueryUnescape v) as [d|] eqn:Hd; [|done].
    intros H. destruct (IH _ _ H) as (ds & HF & HT).
    exists (d :: ds). split; [by constructor|].
    rewrite HT. simpl. by rewrite <- app_assoc.
Qed.

(** X16: when the parse succeeds, the values of a key that lowers to as,
    which the query decomposition has decoded once, are unescaped once
    more and stand in the acceptable sources in order and next to each
    other; a value that does not unescape fails the whole parse with an
    error that wraps [ErrMalformedMagnetLink]. *)
Theorem ParseMagnetLink_acceptable_sources (uri : string)
    (opts : list (option MagnetLinkParseOption)) (u : url.URL)
    (key : string) (values : list string) :
  url.Parse lowerNonASCII uri = Ok u →
  ToLower (url.Scheme u) = "magnet" →
  url.Query u !! key = Some values →
  ToLower key = "as" →
  (∀ l, ParseMagnetLink uri opts = Ok l →
        ∃ decoded pre post,
          Forall2 (λ v d, url.QueryUnescape v = Ok d) values decoded
          ∧ As l = pre ++ decoded ++ post)
  ∧ (∀ v e, v ∈ values → url.QueryUnescape v = Fail e →
            ∃ err, ParseMagnetLink uri opts = Fail err
                   ∧ wraps err = ErrMalformedMagnetLink).
Proof.
  intros Hu Hs Hq Hk. split.
  - intros l Hp.
    destruct (ParseMagnetLink_visit _ _ _ _ _ _ Hu Hs Hq Hp)
      as (s1 & s2 & Hstep & Hg).
    rewrite (parseParameter_as _ _ _ _ Hk) in Hstep.
    apply forEach_parseAs in Hstep as (ds & HF & HX).
    destruct Hg as (_ & _ & _ & G & _). rewrite HX in G.
    apply prefix_middle in G as (post & G). by exists ds, (As s1), post.
  - intros v e Hv Hbad.
    apply (ParseMagnetLink_reject _ _ _ _ _ Hu Hs Hq).
    intros s1 s2. rewrite (parseParameter_as _ _ _ _ Hk). intros H.
    apply forEach_parseAs in H as (ds & HF & _).
    apply list_elem_of_lookup in Hv as (i & Hi).
    destruct (Forall2_lookup_l _ _ _ _ _ HF Hi) as (d & _ & Hd).
    congruence.
Qed.

Lemma parseParameter_exp option name values l :
  ∀ key, ToLower key = "x." +:+ name →
  parseParameter option (key, values) l
  = if String.eqb name EmptyString then Fail (malformed InvalidExperimental)
    else Ok (appendExps l name values).
Proof.
  intros key H. unfold parseParameter. simpl fst. simpl snd. rewrite H.
  change ("x." +:+ name) with (String "x" (String "." name)).
  assert (H1 : checkIsMagnetLinkXTParameter (String "x" (String "." name)) = false)
    by reflexivity.
  assert (H2 : strings.HasPrefix (String "x" (String "." name)) "x." = true)
    by (by destruct name).
  rewrite H1, H2. simpl String.eqb. cbv iota.
  destruct name as [|c r]; [done|].
  simpl. by rewrite substring_all.
Qed.

(** X17: the values of a key that lowers to x, a dot and a name that is
    not empty stand, when the parse succeeds, in the experimental
    parameters under that name (the prefix stripped), in order and next
    to each other; a key that lowers to x and a dot alone fails the
    parse, in strict mode or not, with an error that wraps
    [ErrMalformedMagnetLink]. *)
Theorem ParseMagnetLink_experimental (uri : string)
    (opts : list (option MagnetLinkParseOption)) (u : url.URL)
    (key name : string) (values : list string) :
  url.Parse lowerNonASCII uri = Ok u →
  ToLower (url.Scheme u) = "magnet" →
  url.Query u !! key = Some values →
  ToLower key = "x." +:+ name →
  (name ≠ EmptyString →
   ∀ l, ParseMagnetLink uri opts = Ok l →
        ∃ pre post, Exps l !! name = Some (pre ++ values ++ post))
  ∧ (name = EmptyString →
     ∃ e, ParseMagnetLink uri opts = Fail e ∧ wraps e = ErrMalformedMagnetLink).
Proof.
  intros Hu Hs Hq Hk. split.
  - intros Hne l Hp.
    destruct (ParseMagnetLink_visit _ _ _ _ _ _ Hu Hs Hq Hp)
      as (s1 & s2 & Hstep & Hg).
    rewrite (parseParameter_exp _ _ _ _ _ Hk) in Hstep.
    destruct (String.eqb_spec name EmptyString); [done|].
    injection Hstep as <-.
    destruct Hg as (_ & _ & _ & _ & _ & _ & _ & _ & _ & G & _).
    destruct (G name (default [] (Exps s1 !! name) ++ values)) as (post & Hpost).
    { simpl. unfold url.appendAt. by rewrite lookup_insert_eq. }
    exists (default [] (Exps s1 !! name)), post. by rewrite Hpost, <- app_assoc.
  - intros ->.
    apply (ParseMagnetLink_reject _ _ _ _ _ Hu Hs Hq).
    intros s1 s2. by rewrite (parseParameter_exp _ _ _ _ _ Hk).
Qed.

(** ** What one step of the loop changes *)

Lemma forEach_inv {E A S} (body : A → S → result E S) (P : S → Prop) xs : ∀ s s',
  (∀ x s s', body x s = Ok s' → P s → P s') →
  forEach body xs s = Ok s' → P s → P s'.
Proof.
  intros s s' Hbody H.
  apply (forEach_ok body (λ s s', P s → P s') xs s s'); auto.
Qed.

Lemma sameTail_forEach {A} (body : A → MagnetLink → result MagnetError MagnetLink)
    xs l l' :
  (∀ x s s', body x s = Ok s' → sameTail s s') →
  forEach body xs l = Ok l' → sameTail l l'.
Proof.
  intros H. apply (forEach_ok body sameTail); auto.
  - by intros s.
  - intros s1 s2 s3 (A1 & A2 & A3) (B1 & B2 & B3).
    unfold sameTail. by rewrite B1, B2, B3.
Qed.

Lemma forEach_parseSoSegment segs : ∀ l l',
  forEach parseSoSegment segs l = Ok l' →
  Exps l' = Exps l ∧ Unknowns l' = Unknowns l
  ∧ ∃ rs, So l' = So l ++ rs ∧ Forall isSinglePoint rs
          ∧ Forall2 (λ seg r, ParseNumRangeFromString seg = (r, None)) segs rs.
Proof.
  induction segs as [|seg segs IH]; intros l l'; simpl.
  - intros [= <-]. repeat split. exists []. by rewrite app_nil_r.
  - unfold parseSoSegment at 1.
    destruct (ParseNumRangeFromString seg) as [r [e|]] eqn:Hseg; [done|].
    intros H. destruct (IH _ _ H) as (HE & HU & rs & HS & HF & HF2).
    simpl in *. repeat split; [done..|].
    exists (r :: rs). rewrite HS, <- app_assoc. split; [done|]. split.
    + constructor; [|done].
      apply ParseNumRangeFromString_ok in Hseg as (_ & n & _ & ->). by repeat split.
    + by constructor.
Qed.

Lemma forEach_parseSo values : ∀ l l',
  forEach parseSo values l = Ok l' →
  Exps l' = Exps l ∧ Unknowns l' = Unknowns l
  ∧ ∃ rs, So l' = So l ++ rs ∧ Forall isSinglePoint rs.
Proof.
  induction values as [|v vs IH]; intros l l'; simpl.
  - intros [= <-]. repeat split. exists []. by rewrite app_nil_r.
  - unfold parseSo at 1.
    destruct (forEach parseSoSegment (strings.Split v ",") l) as [l1|] eqn:Hv; [|done].
    apply forEach_parseSoSegment in Hv as (HE1 & HU1 & rs1 & HS1 & HF1 & _).
    intros H. destruct (IH _ _ H) as (HE & HU & rs & HS & HF).
    repeat split; [congruence..|].
    exists (rs1 ++ rs). rewrite HS, HS1, <- app_assoc. split; [done|].
    by apply Forall_app.
Qed.

(** One step of the loop either leaves the select-only ranges and the two
    maps alone, or adds single-point ranges, or adds values under an
    experimental name that is not empty, or, outside strict mode, adds
    values under an unknown key. *)
Lemma parseParameter_tail option kv l l' :
  parseParameter option kv l = Ok l' →
  sameTail l l'
  ∨ (Exps l' = Exps l ∧ Unknowns l' = Unknowns l
     ∧ ∃ rs, So l' = So l ++ rs ∧ Forall isSinglePoint rs)
  ∨ (So l' = So l ∧ Unknowns l' = Unknowns l
     ∧ ∃ name, name ≠ EmptyString ∧ Exps l' = url.appendAt (Exps l) name kv.2)
  ∨ (So l' = So l ∧ Exps l' = Exps l ∧ Strict option = false
     ∧ isUnknownKey (ToLower kv.1) = true
     ∧ Unknowns l' = url.appendAt (Unknowns l) (ToLower kv.1) kv.2).
Proof.
  unfold parseParameter.
  destruct (String.eqb (ToLower kv.1) "dn") eqn:E1;
    [intros [= <-]; by left|].
  destruct (checkIsMagnetLinkXTParameter (ToLower kv.1)) eqn:E2.
  { intros H. left. revert H. apply sameTail_forEach. intros v s s'.
    unfold parseXt. destruct (ParseUrn v) as [? [?|]]; [done|]. by intros [= <-]. }
  destruct (String.eqb (ToLower kv.1) "xl") eqn:E3.
  { intros H. left. revert H. apply sameTail_forEach. intros v s s'.
    unfold parseXl. destruct (strconv.Atoi v) as [? [?|]]; [done|]. by intros [= <-]. }
  destruct (String.eqb (ToLower kv.1) "as") eqn:E4.
  { intros H. left. revert H. apply sameTail_forEach. intros v s s'.
    unfold parseAs. destruct (url.QueryUnescape v); [|done]. by intros [= <-]. }
  destruct (String.eqb (ToLower kv.1) "xs") eqn:E5; [intros [= <-]; by left|].
  destruct (String.eqb (ToLower kv.1) "kt") eqn:E6; [intros [= <-]; by left|].
  destruct (String.eqb (ToLower kv.1) "mt") eqn:E7; [intros [= <-]; by left|].
  destruct (String.eqb (ToLower kv.1) "tr") eqn:E8.
  { intros H. left. revert H. apply sameTail_forEach. intros v s s'.
    unfold parseTr. destruct (url.QueryUnescape v); [|done]. by intros [= <-]. }
  destruct (String.eqb (ToLower kv.1) "so") eqn:E9.
  { intros H. right. left. by apply forEach_parseSo in H. }
  destruct (strings.HasPrefix (ToLower kv.1) "x.") eqn:E10.
  { destruct (String.length (ToLower kv.1) <=? 2)%nat eqn:El; [done|].
    intros [= <-]. right. right. left. simpl. repeat split.
    eexists. split; [|reflexivity].
    apply Nat.leb_gt in El. intros Hn.
    apply (f_equal String.length) in Hn. revert Hn El.
    generalize (ToLower kv.1). intros k.
    destruct k as [|a [|b [|c r]]]; simpl; intros; try lia; done. }
  destruct (Strict option) eqn:Es; [done|].
  intros [= <-]. right. right. right. simpl. repeat split.
  unfold isUnknownKey. by rewrite E1, E2, E3, E4, E5, E6, E7, E8, E9, E10.
Qed.

Lemma parseParameter_So option kv l l' :
  parseParameter option kv l = Ok l' →
  Forall isSinglePoint (So l) → Forall isSinglePoint (So l').
Proof.
  intros H HF.
  destruct (parseParameter_tail _ _ _ _ H)
    as [(-> & _)|[(_ & _ & rs & -> & Hrs)|[(-> & _)|(-> & _)]]]; try done.
  by apply Forall_app.
Qed.

(** X18: every select-only range of a link that [ParseMagnetLink] returns
    holds a single number, start and end equal and both included: no
    range with two different bounds is ever returned. *)
Theorem ParseMagnetLink_select_only_single (uri : string)
    (opts : list (option MagnetLinkParseOption)) (l : MagnetLink) :
  ParseMagnetLink uri opts = Ok l → Forall isSinglePoint (So l).
Proof.
  unfold ParseMagnetLink.
  destruct (url.Parse lowerNonASCII uri) as [u|]; [|done].
  destruct (negb _); [done|].
  intros H.
  apply (forEach_inv (parseParameter (applyOptions opts))
           (λ l, Forall isSinglePoint (So l)) _ _ _
           (λ kv s s', parseParameter_So (applyOptions opts) kv s s') H).
  constructor.
Qed.

Lemma parseParameter_so option key values l :
  ToLower key = "so" →
  parseParameter option (key, values) l = forEach parseSo values l.
Proof. intros H. unfold parseParameter. simpl fst. by rewrite H. Qed.

(** X19: a value with a hyphen under a key that lowers to so fails the
    parse with an error that wraps [ErrMalformedMagnetLink]: a range of
    two numbers cannot be selected. *)
Theorem ParseMagnetLink_select_only_hyphen (uri : string)
    (opts : list (option MagnetLinkParseOption)) (u : url.URL)
    (key : string) (values : list string) (v : string) :
  url.Parse lowerNonASCII uri = Ok u →
  ToLower (url.Scheme u) = "magnet" →
  url.Query u !! key = Some values →
  ToLower key = "so" →
  v ∈ values → (0 < string_count "-" v)%nat →
  ∃ e, ParseMagnetLink uri opts = Fail e ∧ wraps e = ErrMalformedMagnetLink.
Proof.
  intros Hu Hs Hq Hk Hv Hhy.
  apply (ParseMagnetLink_reject _ _ _ _ _ Hu Hs Hq).
  intros s1 s2. rewrite (parseParameter_so _ _ _ _ Hk). intros H.
  destruct (forEach_each _ _ _ _ H v Hv) as (t1 & t2 & Ht).
  unfold parseSo in Ht.
  apply forEach_parseSoSegment in Ht as (_ & _ & rs & _ & _ & HF2).
  assert (Hc : string_count "-" v = 0); [|lia].
  apply (Split_count_other v ","); [done|].
  apply Forall_forall. intros seg Hseg.
  apply list_elem_of_lookup in Hseg as (i & Hi).
  destruct (Forall2_lookup_l _ _ _ _ _ HF2 Hi) as (r & _ & Hr).
  by apply ParseNumRangeFromString_ok in Hr as [? _].
Qed.



(** ** Strict mode and options *)

Lemma parseParameter_strict option option' kv l l' :
  Strict option = true →
  parseParameter option kv l = Ok l' →
  parseParameter option' kv l = Ok l' ∧ Unknowns l' = Unknowns l.
Proof.
  intros Hs H. split.
  - revert H. unfold parseParameter. rewrite Hs.
    repeat match goal with
           | |- context [if ?b then _ else _] => destruct b
           end; done.
  - destruct (parseParameter_tail _ _ _ _ H)
      as [(_ & _ & ->)|[(_ & -> & _)|[(_ & -> & _)|(_ & _ & Hf & _)]]];
      try done. congruence.
Qed.

Lemma forEach_strict option option' xs : ∀ l l',
  Strict option = true →
  forEach (parseParameter option) xs l = Ok l' →
  forEach (parseParameter option') xs l = Ok l' ∧ Unknowns l' = Unknowns l.
Proof.
  induction xs as [|kv xs IH]; intros l l' Hs; simpl.
  - by intros [= <-].
  - destruct (parseParameter option kv l) as [l1|] eqn:H1; [|done].
    destruct (parseParameter_strict _ option' _ _ _ Hs H1) as [-> HU].
    intros H. destruct (IH _ _ Hs H) as [-> HU']. split; [done|congruence].
Qed.

Lemma applyOptions_app opts opts' :
  applyOptions (opts ++ opts')
  = fold_left (λ o opt, match opt with Some set => set o | None => o end)
              opts' (applyOptions opts).
Proof. unfold applyOptions. by rewrite fold_left_app. Qed.

Lemma fold_nil_options o (rest : list (option MagnetLinkParseOption)) :
  Forall (λ opt, opt = None) rest →
  fold_left (λ o opt, match opt with Some set => set o | None => o end) rest o = o.
Proof.
  revert o. induction rest as [|opt rest IH]; intros o H; simpl; [done|].
  apply Forall_cons in H as [-> H]. by apply IH.
Qed.

(** X22: the options are applied from left to right and nil options are
    skipped: the last strict option given decides, whatever came before
    it, and without any option the parse is not strict. *)
Theorem applyOptions_last (opts rest : list (option MagnetLinkParseOption))
    (strict : bool) :
  Forall (λ opt, opt = None) rest →
  applyOptions (opts ++ Some (WithMagnetLinkParseStrictOption strict) :: rest)
  = {| Strict := strict |}
  ∧ applyOptions rest = {| Strict := false |}.
Proof.
  intros H. split.
  - rewrite applyOptions_app. simpl. by rewrite fold_nil_options.
  - unfold applyOptions. by rewrite fold_nil_options.
Qed.

(** ** The order of the loop *)

Lemma forEach_accepts {A} (body : A → MagnetLink → result MagnetError MagnetLink) xs :
  (∀ x s s', body x s = Ok s' → ∀ t, ∃ t', body x t = Ok t') →
  ∀ s s', forEach body xs s = Ok s' → ∀ t, ∃ t', forEach body xs t = Ok t'.
Proof.
  intros Hbody. induction xs as [|x xs IH]; intros s s' H t; simpl in *; [eauto|].
  destruct (body x s) as [s1|] eqn:Hx; [|done].
  destruct (Hbody _ _ _ Hx t) as (t1 & ->). eauto.
Qed.

(** Whether the loop body accepts a parameter does not depend on the link
    built so far. *)
Lemma parseParameter_accepts option kv l l' :
  parseParameter option kv l = Ok l' →
  ∀ t, ∃ t', parseParameter option kv t = Ok t'.
Proof.
  unfold parseParameter.
  repeat match goal with
         | |- context [if ?b then _ else _] => destruct b
         end;
    try done; try (by intros _ t; eauto); apply forEach_accepts.
  - intros v s s'. unfold parseXt.
    destruct (ParseUrn v) as [? [?|]]; [done|]. eauto.
  - intros v s s'. unfold parseXl.
    destruct (strconv.Atoi v) as [? [?|]]; [done|]. eauto.
  - intros v s s'. unfold parseAs.
    destruct (url.QueryUnescape v); [|done]. eauto.
  - intros v s s'. unfold parseTr.
    destruct (url.QueryUnescape v); [|done]. eauto.
  - intros v s s'. unfold parseSo. apply forEach_accepts.
    intros x m m'. unfold parseSoSegment.
    destruct (ParseNumRangeFromString x) as [? [?|]]; [done|]. eauto.
Qed.

Lemma forEach_accepted option xs : ∀ l,
  (∃ l', forEach (parseParameter option) xs l = Ok l')
  ↔ Forall (accepted option) xs.
Proof.
  induction xs as [|kv xs IH]; intros l; simpl.
  - split; [by constructor|eauto].
  - split.
    + intros (l' & H).
      destruct (parseParameter option kv l) as [l1|] eqn:Hkv; [|done].
      constructor.
      * apply (parseParameter_accepts _ _ _ _ Hkv).
      * apply (IH l1). eauto.
    + intros H. apply Forall_cons in H as [(l0 & Hkv) Hxs].
      destruct (parseParameter_accepts _ _ _ _ Hkv l) as (l1 & ->).
      by apply IH.
Qed.

Lemma forEach_permutation option xs ys l :
  xs ≡ₚ ys →
  (∃ l', forEach (parseParameter option) xs l = Ok l') →
  ∃ l', forEach (parseParameter option) ys l = Ok l'.
Proof. rewrite !forEach_accepted. by intros ->. Qed.

(** ** Where the exact topics come from *)

Lemma forEach_inv_mem {E A S} (body : A → S → result E S) (P : S → Prop) xs : ∀ s s',
  (∀ x s s', x ∈ xs → body x s = Ok s' → P s → P s') →
  forEach body xs s = Ok s' → P s → P s'.
Proof.
  induction xs as [|x xs IH]; intros s s' Hbody; simpl.
  - by intros [= <-].
  - destruct (body x s) as [s1|] eqn:Hx; [|done].
    intros H HP. apply (IH s1 s'); [|done|].
    + intros y t t' Hy. apply Hbody. by apply elem_of_cons; right.
    + eapply Hbody; [|exact Hx|done]. by apply elem_of_cons; left.
Qed.

Lemma sameXt_forEach {A} (body : A → MagnetLink → result MagnetError MagnetLink)
    xs l l' :
  (∀ x s s', body x s = Ok s' → Xt s' = Xt s) →
  forEach body xs l = Ok l' → Xt l' = Xt l.
Proof.
  intros H. apply (forEach_ok body (λ s s', Xt s' = Xt s)); auto.
  intros s1 s2 s3 H1 H2. congruence.
Qed.

Lemma parseParameter_other_Xt option kv l l' :
  checkIsMagnetLinkXTParameter (ToLower kv.1) = false →
  parseParameter option kv l = Ok l' → Xt l' = Xt l.
Proof.
  intros Hk. unfold parseParameter. rewrite Hk.
  repeat match goal with
         | |- context [if ?b then _ else _] => destruct b
         end;
    try done; try (by intros [= <-]); apply sameXt_forEach.
  - intros v s s'. unfold parseXl.
    destruct (strconv.Atoi v) as [? [?|]]; [done|]. by intros [= <-].
  - intros v s s'. unfold parseAs.
    destruct (url.QueryUnescape v); [|done]. by intros [= <-].
  - intros v s s'. unfold parseTr.
    destruct (url.QueryUnescape v); [|done]. by intros [= <-].
  - intros v s s'. unfold parseSo. apply sameXt_forEach.
    intros x m m'. unfold parseSoSegment.
    destruct (ParseNumRangeFromString x) as [? [?|]]; [done|]. by intros [= <-].
Qed.

(** X24: every exact topic of a link that [ParseMagnetLink] returns is
    the Urn that [ParseUrn] makes of a value of an exact-topic key of the
    query: the parser puts nothing else there. *)
Theorem ParseMagnetLink_exact_topics_origin (uri : string)
    (opts : list (option MagnetLinkParseOption)) (u : url.URL)
    (l : MagnetLink) (urn : Urn) :
  url.Parse lowerNonASCII uri = Ok u →
  ToLower (url.Scheme u) = "magnet" →
  ParseMagnetLink uri opts = Ok l →
  urn ∈ Xt l →
  ∃ key values v,
    url.Query u !! key = Some values
    ∧ checkIsMagnetLinkXTParameter (ToLower key) = true
    ∧ v ∈ values ∧ ParseUrn v = (urn, None).
Proof.
  intros Hu Hs. rewrite (ParseMagnetLink_loop _ _ _ Hu Hs). intros Hloop.
  pose (P := λ s : MagnetLink, ∀ urn, urn ∈ Xt s →
      ∃ key values v,
        url.Query u !! key = Some values
        ∧ checkIsMagnetLinkXTParameter (ToLower key) = true
        ∧ v ∈ values ∧ ParseUrn v = (urn, None)).
  assert (HP : P l); [|exact (HP urn)].
  apply (forEach_inv_mem (parseParameter (applyOptions opts)) P _ _ _) in Hloop;
    [done| |].
  - intros [key values] s s' Hin Hstep Hinv urn' Hurn.
    apply rangeOrder_entries in Hin. simpl in Hin.
    destruct (checkIsMagnetLinkXTParameter (ToLower key)) eqn:Hk.
    + rewrite (parseParameter_xt _ _ _ _ Hk) in Hstep.
      apply forEach_parseXt in Hstep as (urns & HF & HX).
      rewrite HX in Hurn. apply elem_of_app in Hurn as [Hold|Hnew];
        [by apply Hinv|].
      apply list_elem_of_lookup in Hnew as (i & Hi).
      destruct (Forall2_lookup_r _ _ _ _ _ HF Hi) as (v & Hv & Hp).
      exists key, values, v. repeat split; try done.
      apply list_elem_of_lookup. eauto.
    + rewrite (parseParameter_other_Xt _ (key, values) _ _ Hk Hstep) in Hurn.
      by apply Hinv.
  - intros urn' Hurn. by apply elem_of_nil in Hurn.
Qed.

(** X25: a link that [ParseTorrentMagnetLink] returns embeds the link
    that [ParseMagnetLink] returns for the same URI and options, and
    holds one hash for each of its btih exact topics, at least one. *)
Theorem ParseTorrentMagnetLink_success (uri : string)
    (opts : list (option MagnetLinkParseOption)) (t : TorrentMagnetLink) :
  ParseTorrentMagnetLink uri opts = Ok t →
  ParseMagnetLink uri opts = Ok (MagnetLink_ t)
  ∧ InfoHashs t ≠ []
  ∧ length (InfoHashs t) = length (List.filter isBtih (Xt (MagnetLink_ t))).
Proof.
  unfold ParseTorrentMagnetLink.
  destruct (ParseMagnetLink uri opts) as [l|]; [|done].
  intros Ht. apply AsTorrent_ok in Ht as (<- & Hne & Hc).
  split; [done|]. split; [done|].
  apply collectInfoHash_ok in Hc as (new & E & HF). simpl in E. subst new.
  symmetry. by eapply Forall2_length.
Qed.


(** ** Keys that are not recognized *)

Lemma HasPrefix_x_dot_inv key :
  strings.HasPrefix key "x." = true → ∃ rest, key = String "x" (String "." rest).
Proof.
  destruct key as [|k1 [|k2 rest]]; unfold strings.HasPrefix;
    cbn [String.prefix]; try done.
  - by destruct (ascii_dec "x" k1).
  - destruct (ascii_dec "x" k1) as [<-|]; [|done].
    destruct (ascii_dec "." k2) as [<-|]; [|done]. eauto.
Qed.

(** A key that is not recognized is an unknown key or the bare
    experimental prefix. *)
Lemma isRecognizedKey_false key :
  isRecognizedKey key = false → isUnknownKey key = true ∨ key = "x.".
Proof.
  unfold isRecognizedKey, isUnknownKey. rewrite !orb_false_iff.
  intros (((((((((-> & ->) & ->) & ->) & ->) & ->) & ->) & ->) & ->) & Hx).
  destruct (strings.HasPrefix key "x.") eqn:Hp; [|by left].
  right. destruct (HasPrefix_x_dot_inv _ Hp) as (rest & ->).
  destruct rest; [done|]. done.
Qed.

Lemma parseParameter_bare_prefix option key values l :
  ToLower key = "x." →
  parseParameter option (key, values) l = Fail (malformed InvalidExperimental).
Proof.
  intros H. by rewrite (parseParameter_exp option EmptyString values l key).
Qed.

(** The entries of the query other than the one of a key, in the order of
    the loop: their keys are other keys. *)
Lemma rangeOrder_split q key values :
  q !! key = Some values →
  ∃ before after,
    rangeOrder q = before ++ (key, values) :: after
    ∧ ∀ kv, kv ∈ before ++ after → kv.1 ≠ key ∧ q !! kv.1 = Some kv.2.
Proof.
  intros Hq. destruct (rangeOrder_visits _ _ _ Hq) as (before & after & Ho).
  exists before, after. split; [done|].
  assert (Hnd : NoDup ((rangeOrder q).*1)).
  { rewrite (rangeOrder_perm q). apply NoDup_fst_map_to_list. }
  rewrite Ho, fmap_app, fmap_cons in Hnd. simpl in Hnd.
  apply NoDup_app in Hnd as (_ & Hba & Hnd).
  apply NoDup_cons in Hnd as [Ha _].
  intros kv Hin. split.
  - intros Heq. apply elem_of_app in Hin as [Hin|Hin].
    + apply (Hba kv.1); [by apply list_elem_of_fmap_2|]. rewrite Heq. by left.
    + apply Ha. rewrite <- Heq. by apply list_elem_of_fmap_2.
  - apply rangeOrder_entries. rewrite Ho.
    apply elem_of_app in Hin as [Hin|Hin]; apply elem_of_app; [by left|].
    right. by apply elem_of_cons; right.
Qed.

Lemma parseParameter_Unknowns_other option kv l l' lk :
  parseParameter option kv l = Ok l' → ToLower kv.1 ≠ lk →
  Unknowns l' !! lk = Unknowns l !! lk.
Proof.
  intros H Hne.
  destruct (parseParameter_tail _ _ _ _ H)
    as [(_ & _ & ->)|[(_ & -> & _)|[(_ & -> & _)|(_ & _ & _ & _ & ->)]]];
    try done.
  unfold url.appendAt. by rewrite lookup_insert_ne.
Qed.

Lemma forEach_Unknowns_other option xs lk : ∀ l l',
  (∀ kv, kv ∈ xs → ToLower kv.1 ≠ lk) →
  forEach (parseParameter option) xs l = Ok l' →
  Unknowns l' !! lk = Unknowns l !! lk.
Proof.
  induction xs as [|kv xs IH]; intros l l' Hne; simpl.
  - by intros [= <-].
  - destruct (parseParameter option kv l) as [l1|] eqn:H1; [|done].
    intros H. rewrite (IH l1 l'); [|by intros ??; apply Hne; right|done].
    eapply parseParameter_Unknowns_other; [exact H1|]. apply Hne. by left.
Qed.

(** C6, as amended: for a magnet URI with a query key whose lower-cased
    form is not one of the recognized keys (dn, xt, xt.N, xl, as, xs, kt,
    mt, tr, so, x.name with a name), [ParseMagnetLink] fails with an
    error that wraps [ErrMalformedMagnetLink] in strict mode, and in any
    mode when the key lowers to the bare prefix x and a dot; otherwise,
    without strict mode, it succeeds exactly when the loop body accepts
    every other parameter of the query, and the link then holds, under
    the lower-cased key in the unknown parameters, a list in which the
    values of the key stand in order and next to each other, and which is
    exactly these values when no other key of the query lowers to the
    same key. *)
Theorem ParseMagnetLink_unknown_key (uri : string)
    (opts : list (option MagnetLinkParseOption)) (u : url.URL)
    (key : string) (values : list string) :
  url.Parse lowerNonASCII uri = Ok u →
  ToLower (url.Scheme u) = "magnet" →
  url.Query u !! key = Some values →
  isRecognizedKey (ToLower key) = false →
  (Strict (applyOptions opts) = true ∨ ToLower key = "x." →
   ∃ e, ParseMagnetLink uri opts = Fail e ∧ wraps e = ErrMalformedMagnetLink)
  ∧ (Strict (applyOptions opts) = false → ToLower key ≠ "x." →
     ((∃ l, ParseMagnetLink uri opts = Ok l)
      ↔ ∀ k vs, url.Query u !! k = Some vs → k ≠ key →
                accepted (applyOptions opts) (k, vs))
     ∧ (∀ l, ParseMagnetLink uri opts = Ok l →
             (∃ pre post, Unknowns l !! ToLower key = Some (pre ++ values ++ post))
             ∧ ((∀ k vs, url.Query u !! k = Some vs → k ≠ key →
                         ToLower k ≠ ToLower key) →
                Unknowns l !! ToLower key = Some values))).
Proof.
  intros Hu Hs Hq Hnr. apply isRecognizedKey_false in Hnr.
  split.
  - intros Hwhy. apply (ParseMagnetLink_reject _ _ _ _ _ Hu Hs Hq).
    intros s1 s2.
    destruct Hnr as [Hk|Hx].
    + destruct Hwhy as [Hstrict|Hx].
      * by rewrite (parseParameter_unknown _ _ _ _ Hk), Hstrict.
      * by rewrite (parseParameter_bare_prefix _ _ _ _ Hx).
    + by rewrite (parseParameter_bare_prefix _ _ _ _ Hx).
  - intros Hlax Hnx. destruct Hnr as [Hk|Hx]; [|done].
    assert (Hstep : ∀ s, parseParameter (applyOptions opts) (key, values) s
                         = Ok (appendUnknowns s (ToLower key) values)).
    { intros s. by rewrite (parseParameter_unknown _ _ _ _ Hk), Hlax. }
    split.
    + rewrite (ParseMagnetLink_loop _ _ _ Hu Hs), forEach_accepted, Forall_forall.
      split.
      * intros Hall k vs Hkv _. apply Hall.
        rewrite (rangeOrder_perm (url.Query u)). by apply elem_of_map_to_list.
      * intros Hall [k vs] Hin. apply rangeOrder_entries in Hin. simpl in Hin.
        destruct (decide (k = key)) as [->|Hne]; [|by apply Hall].
        rewrite Hq in Hin. injection Hin as <-.
        eexists. apply Hstep.
    + intros l Hp. split.
      * destruct (ParseMagnetLink_visit _ _ _ _ _ _ Hu Hs Hq Hp)
          as (s1 & s2 & Hs12 & Hg).
        rewrite Hstep in Hs12. injection Hs12 as <-.
        destruct Hg as (_ & _ & _ & _ & _ & _ & _ & _ & _ & _ & G).
        destruct (G (ToLower key) (default [] (Unknowns s1 !! ToLower key) ++ values))
          as (post & Hpost).
        { simpl. unfold url.appendAt. by rewrite lookup_insert_eq. }
        exists (default [] (Unknowns s1 !! ToLower key)), post.
        by rewrite Hpost, <- app_assoc.
      * intros Hother.
        rewrite (ParseMagnetLink_loop _ _ _ Hu Hs) in Hp.
        destruct (rangeOrder_split _ _ _ Hq) as (before & after & Ho & Hrest).
        rewrite Ho in Hp.
        apply forEach_step in Hp as (s1 & s2 & Hb & Hs12 & Ha).
        rewrite Hstep in Hs12. injection Hs12 as <-.
        assert (Hlow : ∀ kv, kv ∈ before ++ after → ToLower kv.1 ≠ ToLower key).
        { intros kv Hin. destruct (Hrest kv Hin) as [Hne Hkv]. by eapply Hother. }
        apply (forEach_Unknowns_other _ _ (ToLower key)) in Hb;
          [|by intros kv Hin; apply Hlow, elem_of_app; left].
        apply (forEach_Unknowns_other _ _ (ToLower key)) in Ha;
          [|by intros kv Hin; apply Hlow, elem_of_app; right].
        rewrite Ha. simpl. unfold url.appendAt.
        rewrite lookup_insert_eq, Hb. simpl. by rewrite lookup_empty.
Qed.

(** X6: a query key whose lower-cased form starts with xt without being
    an exact-topic key (xt and anything but a dot and an integer) is
    taken by no branch of the dispatch but the last: the loop body fails
    on it in strict mode and otherwise appends its values to the unknown
    parameters under the lower-cased key, so [ParseMagnetLink] fails in
    strict mode and, when it succeeds, holds the values there, in order
    and next to each other. *)
Theorem xt_prefix_unknown (uri : string)
    (opts : list (option MagnetLinkParseOption)) (u : url.URL)
    (key : string) (values : list string) :
  url.Parse lowerNonASCII uri = Ok u →
  ToLower (url.Scheme u) = "magnet" →
  url.Query u !! key = Some values →
  strings.HasPrefix (ToLower key) "xt" = true →
  checkIsMagnetLinkXTParameter (ToLower key) = false →
  (∀ option l,
     parseParameter option (key, values) l
     = if Strict option then Fail (malformed UnknownParameters)
       else Ok (appendUnknowns l (ToLower key) values))
  ∧ (Strict (applyOptions opts) = true →
     ∃ e, ParseMagnetLink uri opts = Fail e ∧ wraps e = ErrMalformedMagnetLink)
  ∧ (∀ l, ParseMagnetLink uri opts = Ok l →
          Strict (applyOptions opts) = false
          ∧ ∃ pre post, Unknowns l !! ToLower key = Some (pre ++ values ++ post)).
Proof.
  intros Hu Hs Hq Hp Hc.
  pose proof (isUnknownKey_xt_prefix _ Hp Hc) as Hk.
  split; [|split].
  - intros option l. apply (parseParameter_unknown _ _ _ _ Hk).
  - intros Hstrict. apply (ParseMagnetLink_reject _ _ _ _ _ Hu Hs Hq).
    intros s1 s2. by rewrite (parseParameter_unknown _ _ _ _ Hk), Hstrict.
  - intros l Hl.
    destruct (ParseMagnetLink_visit _ _ _ _ _ _ Hu Hs Hq Hl)
      as (s1 & s2 & Hs12 & Hg).
    rewrite (parseParameter_unknown _ _ _ _ Hk) in Hs12.
    destruct (Strict (applyOptions opts)); [done|]. split; [done|].
    injection Hs12 as <-.
    destruct Hg as (_ & _ & _ & _ & _ & _ & _ & _ & _ & _ & G).
    destruct (G (ToLower key) (default [] (Unknowns s1 !! ToLower key) ++ values))
      as (post & Hpost).
    { simpl. unfold url.appendAt. by rewrite lookup_insert_eq. }
    exists (default [] (Unknowns s1 !! ToLower key)), post.
    by rewrite Hpost, <- app_assoc.
Qed.

End Package.

(** * The properties at concrete inputs *)

Lemma Sample_rangeOrder_perm q : Sample.rangeOrder q ≡ₚ map_to_list q.
Proof. reflexivity. Qed.

(** The rendering of -1, a hyphen and the rendering of 2 do not parse to
    the range from -1 to 2: the string has three segments. *)
Lemma ParseNumRangeFromString_negative_start :
  ParseNumRangeFromString (strconv.Itoa (-1) +:+ "-" +:+ strconv.Itoa 2)
  ≠ ({| Start := -1; End_ := 2; IncludeStart := true; IncludeEnd := true |}, None).
Proof. vm_compute. discriminate. Qed.

Lemma ParseNumRangeFromString_two_bounds_witness :
  fst (ParseNumRangeFromString "3-7")
  = {| Start := 3; End_ := 7; IncludeStart := true; IncludeEnd := true |}
  ∧ ParseNumRangeFromString "-1-2" = (zeroNumRange, Some NumRangeMalformed).
Proof.
  split.
  - apply (proj1 (ParseNumRangeFromString_two_bounds 3 7)); lia.
  - apply (proj2 (ParseNumRangeFromString_two_bounds (-1) 2)); lia.
Defined.

(** The rendering of -1 does not parse to the single-point range at -1:
    the hyphen splits it into an empty segment and a digit. *)
Lemma ParseNumRangeFromString_negative_single :
  ParseNumRangeFromString (strconv.Itoa (-1)) ≠ (NewSingleNumRange (-1), None).
Proof. vm_compute. discriminate. Qed.

Lemma ParseNumRangeFromString_single_witness :
  ParseNumRangeFromString "42" = (NewSingleNumRange 42, None)
  ∧ ParseNumRangeFromString "4x2"
    = (zeroNumRange,
       Some (NumRangeAtoi {| strconv.Func := "Atoi"; strconv.Num := "4x2";
                             strconv.Err := strconv.ErrSyntax |})).
Proof.
  pose proof (ParseNumRangeFromString_single 42 "4x2" 0
                {| strconv.Func := "Atoi"; strconv.Num := "4x2";
                   strconv.Err := strconv.ErrSyntax |}) as [H1 H2].
  split.
  - apply H1. lia.
  - apply H2; reflexivity.
Defined.

Lemma ParseUrn_three_segments_witness :
  ParseUrn Sample.lowerNonASCII "URN:btih:a%3Ab c"
  = ({| Nid := "btih"; Nss := "a%3Ab c" |}, None)
  ∧ ParseUrn Sample.lowerNonASCII "uri:btih:abc"
    = (zeroUrn, Some (ErrMalformedUrn UrnInvalidScheme))
  ∧ ParseUrn Sample.lowerNonASCII "urn:btih"
    = (zeroUrn, Some (ErrMalformedUrn UrnBare)).
Proof.
  split; [|split].
  - apply (ParseUrn_three_segments Sample.lowerNonASCII "URN" "btih" "a%3Ab c" "urn:btih");
      reflexivity.
  - apply (ParseUrn_three_segments Sample.lowerNonASCII "uri" "btih" "abc" "urn:btih");
      [reflexivity..|discriminate].
  - apply (ParseUrn_three_segments Sample.lowerNonASCII "urn" "btih" "abc" "urn:btih");
      [reflexivity..|discriminate].
Defined.

Lemma ParseUrn_String_witness :
  ParseUrn Sample.lowerNonASCII (Urn_String {| Nid := "btih"; Nss := "0123" |})
  = ({| Nid := "btih"; Nss := "0123" |}, None).
Proof. apply ParseUrn_String; reflexivity. Defined.

Lemma AsTorrent_dispatch_witness :
  (∃ bs, AsTorrent Sample.lowerNonASCII Sample.base32DecodeString
           (sampleLink [{| Nid := "BTIH"; Nss := sampleHash |}])
         = Ok {| MagnetLink_ := sampleLink [{| Nid := "BTIH"; Nss := sampleHash |}];
                 InfoHashs := [{| Type_ := HashSHA1; Value := bs |}] |}
         ∧ length bs = 20%nat)
  ∧ (∃ e, AsTorrent Sample.lowerNonASCII Sample.base32DecodeString
            (sampleLink [{| Nid := "btih"; Nss := "0123" |}]) = Fail e
          ∧ wraps e = ErrMalformedMagnetLink).
Proof.
  split.
  - destruct (AsTorrent_dispatch Sample.lowerNonASCII Sample.base32DecodeString
                (sampleLink [{| Nid := "BTIH"; Nss := sampleHash |}]))
      as (_ & _ & _ & H).
    apply (H "BTIH" sampleHash); reflexivity.
  - destruct (AsTorrent_dispatch Sample.lowerNonASCII Sample.base32DecodeString
                (sampleLink [{| Nid := "btih"; Nss := "0123" |}]))
      as (_ & _ & H & _).
    apply (H {| Nid := "btih"; Nss := "0123" |});
      [apply list_elem_of_here|reflexivity|reflexivity].
Defined.

Lemma AsTorrent_no_btih_witness :
  AsTorrent Sample.lowerNonASCII Sample.base32DecodeString
    (sampleLink [{| Nid := "sha1"; Nss := sampleHash |}])
  = Fail {| wraps := ErrWrongMagnetLinkType; reason := NoTorrent |}
  ∧ AsTorrent Sample.lowerNonASCII Sample.base32DecodeString (sampleLink [])
    = Fail {| wraps := ErrWrongMagnetLinkType; reason := NoTorrent |}.
Proof.
  split.
  - destruct (AsTorrent_no_btih Sample.lowerNonASCII Sample.base32DecodeString
                (sampleLink [{| Nid := "sha1"; Nss := sampleHash |}])) as [H _].
    apply H. repeat constructor.
  - destruct (AsTorrent_no_btih Sample.lowerNonASCII Sample.base32DecodeString
                (sampleLink [])) as [H _].
    apply H. constructor.
Defined.

Lemma ParseMagnetLink_invalid_scheme_witness :
  ParseMagnetLink Sample.lowerNonASCII Sample.rangeOrder "http://example.com" []
  = Fail (malformed InvalidScheme).
Proof.
  apply (ParseMagnetLink_invalid_scheme Sample.lowerNonASCII Sample.rangeOrder
           "http://example.com" []
           {| url.Scheme := "http"; url.RawQuery := EmptyString |});
    [reflexivity|discriminate].
Defined.

(** Without strict mode the key FOO is stored under foo, not under FOO;
    an unknown key does not make a link with a bad length parse; the bare
    prefix x and a dot, which is no recognized key, fails without strict
    mode too; and two keys that differ in case share one list. *)
Lemma ParseMagnetLink_unknown_key_lowered :
  (∃ l, ParseMagnetLink Sample.lowerNonASCII Sample.rangeOrder "magnet:?FOO=bar" [] = Ok l
        ∧ Unknowns l !! "FOO" = None
        ∧ Unknowns l !! "foo" = Some ["bar"])
  ∧ (∃ e, ParseMagnetLink Sample.lowerNonASCII Sample.rangeOrder
            "magnet:?foo=bar&xl=zz" [] = Fail e)
  ∧ (∃ e, ParseMagnetLink Sample.lowerNonASCII Sample.rangeOrder
            "magnet:?x.=1" [] = Fail e)
  ∧ (∃ l, ParseMagnetLink Sample.lowerNonASCII Sample.rangeOrder
            "magnet:?FOO=a&foo=b" [] = Ok l
          ∧ Unknowns l !! "foo" ≠ Some ["b"]).
Proof.
  split; [|split; [|split]].
  - eexists. split; [vm_compute; reflexivity|]. split; vm_compute; reflexivity.
  - eexists. vm_compute. reflexivity.
  - eexists. vm_compute. reflexivity.
  - eexists. split; [vm_compute; reflexivity|]. vm_compute. discriminate.
Qed.

Lemma sampleQuery_lookup (k : string) (vs : list string) :
  url.Query {| url.Scheme := "magnet"; url.RawQuery := "dn=Test&foo=bar" |} !! k
  = Some vs →
  k = "dn" ∧ vs = ["Test"] ∨ k = "foo" ∧ vs = ["bar"].
Proof.
  change (url.Query {| url.Scheme := "magnet"; url.RawQuery := "dn=Test&foo=bar" |})
    with (<["foo" := ["bar"]]> (<["dn" := ["Test"]]> (∅ : gmap string (list string)))).
  destruct (decide (k = "foo")) as [->|Hf].
  - rewrite lookup_insert_eq. intros [= <-]. by right.
  - rewrite lookup_insert_ne by done.
    destruct (decide (k = "dn")) as [->|Hd].
    + rewrite lookup_insert_eq. intros [= <-]. by left.
    + rewrite lookup_insert_ne by done. by rewrite lookup_empty.
Qed.

Lemma ParseMagnetLink_unknown_key_witness :
  (∃ e, ParseMagnetLink Sample.lowerNonASCII Sample.rangeOrder "magnet:?dn=Test&foo=bar"
          [Some (WithMagnetLinkParseStrictOption true)] = Fail e
        ∧ wraps e = ErrMalformedMagnetLink)
  ∧ (∃ l, ParseMagnetLink Sample.lowerNonASCII Sample.rangeOrder
            "magnet:?dn=Test&foo=bar" [] = Ok l)
  ∧ Unknowns (appendUnknowns (appendDn zeroMagnetLink ["Test"]) "foo" ["bar"]) !! "foo"
    = Some ["bar"].
Proof.
  destruct (ParseMagnetLink_unknown_key Sample.lowerNonASCII Sample.rangeOrder
              Sample_rangeOrder_perm "magnet:?dn=Test&foo=bar"
              [Some (WithMagnetLinkParseStrictOption true)]
              {| url.Scheme := "magnet"; url.RawQuery := "dn=Test&foo=bar" |}
              "foo" ["bar"] eq_refl eq_refl eq_refl eq_refl) as [Hstrict _].
  destruct (ParseMagnetLink_unknown_key Sample.lowerNonASCII Sample.rangeOrder
              Sample_rangeOrder_perm "magnet:?dn=Test&foo=bar" []
              {| url.Scheme := "magnet"; url.RawQuery := "dn=Test&foo=bar" |}
              "foo" ["bar"] eq_refl eq_refl eq_refl eq_refl) as [_ Hlax].
  destruct (Hlax eq_refl ltac:(discriminate)) as [Hiff Hok].
  split; [|split].
  - apply Hstrict. left. reflexivity.
  - apply Hiff. intros k vs Hk Hne.
    destruct (sampleQuery_lookup k vs Hk) as [[-> ->]|[-> _]]; [|done].
    eexists. reflexivity.
  - apply (Hok (appendUnknowns (appendDn zeroMagnetLink ["Test"]) "foo" ["bar"])).
    + vm_compute. reflexivity.
    + intros k vs Hk Hne.
      destruct (sampleQuery_lookup k vs Hk) as [[-> ->]|[-> _]]; [discriminate|done].
Defined.

Lemma ParseMagnetLink_trackers_witness :
  ∃ l, ParseMagnetLink Sample.lowerNonASCII Sample.rangeOrder
         "magnet:?dn=Test&tr=http%3A%2F%2Ftracker.example%2Fannounce" [] = Ok l
       ∧ Dn l = ["Test"] ∧ Tr l = ["http://tracker.example/announce"].
Proof.
  eexists. split.
  - apply (ParseMagnetLink_trackers Sample.lowerNonASCII Sample.rangeOrder
             Sample_rangeOrder_perm).
  - split; reflexivity.
Defined.

Lemma ParseTorrentMagnetLink_composition_witness :
  ParseTorrentMagnetLink Sample.lowerNonASCII Sample.base32DecodeString
    Sample.rangeOrder "magnet:?xt=urn:btih:0123456789ABCDEF0123456789ABCDEF01234567" []
  = AsTorrent Sample.lowerNonASCII Sample.base32DecodeString
      (sampleLink [{| Nid := "btih"; Nss := sampleHash |}]).
Proof.
  apply (ParseTorrentMagnetLink_composition Sample.lowerNonASCII
           Sample.base32DecodeString Sample.rangeOrder).
  vm_compute. reflexivity.
Defined.

(** * The order in which the query is visited *)

(** X23: whether [ParseMagnetLink] accepts a URI does not depend on the
    order in which the map of query parameters is visited: if it returns
    a link for one order, it returns a link for every other. *)
Theorem ParseMagnetLink_order_independent
    (lowerNonASCII : string → string)
    (order order' : gmap string (list string) → list (string * list string))
    (uri : string) (opts : list (option MagnetLinkParseOption)) :
  (∀ q, order q ≡ₚ map_to_list q) →
  (∀ q, order' q ≡ₚ map_to_list q) →
  (∃ l, ParseMagnetLink lowerNonASCII order uri opts = Ok l) →
  ∃ l, ParseMagnetLink lowerNonASCII order' uri opts = Ok l.
Proof.
  intros Ho Ho'. unfold ParseMagnetLink.
  destruct (url.Parse lowerNonASCII uri) as [u|]; [|done].
  destruct (negb _); [done|].
  apply forEach_permutation. by rewrite Ho, Ho'.
Qed.

(** X21: a URI that [ParseMagnetLink] accepts in strict mode gives a link
    without unknown parameters; under any other options it is accepted
    too, whatever the order in which the query is visited, again without
    unknown parameters, and for the same visiting order the link is the
    same: strict mode only rejects. *)
Theorem ParseMagnetLink_strict_success
    (lowerNonASCII : string → string)
    (order order' : gmap string (list string) → list (string * list string))
    (uri : string) (opts opts' : list (option MagnetLinkParseOption))
    (l : MagnetLink) :
  (∀ q, order q ≡ₚ map_to_list q) →
  (∀ q, order' q ≡ₚ map_to_list q) →
  Strict (applyOptions opts) = true →
  ParseMagnetLink lowerNonASCII order uri opts = Ok l →
  Unknowns l = ∅
  ∧ ParseMagnetLink lowerNonASCII order uri opts' = Ok l
  ∧ ∃ l', ParseMagnetLink lowerNonASCII order' uri opts' = Ok l'
          ∧ Unknowns l' = ∅.
Proof.
  intros Ho Ho' Hs. unfold ParseMagnetLink.
  destruct (url.Parse lowerNonASCII uri) as [u|]; [|done].
  destruct (negb _); [done|].
  intros H.
  destruct (forEach_strict lowerNonASCII _ (applyOptions opts') _ _ _ Hs H)
    as [H' HU].
  split; [exact HU|]. split; [exact H'|].
  destruct (forEach_permutation lowerNonASCII (applyOptions opts)
              (order (url.Query u)) (order' (url.Query u)) zeroMagnetLink)
    as (l' & Hl'); [by rewrite Ho, Ho'|by eauto|].
  destruct (forEach_strict lowerNonASCII _ (applyOptions opts') _ _ _ Hs Hl')
    as [Hl'' HU'].
  exists l'. split; [exact Hl''|exact HU'].
Qed.

(** * The further properties at concrete inputs *)

Lemma reversedOrder_perm q : reversedOrder q ≡ₚ map_to_list q.
Proof. unfold reversedOrder. apply reverse_Permutation. Qed.

Lemma ParseNumRangeFromString_hyphen_pair_witness :
  ParseNumRangeFromString "1-2"
  = ({| Start := 1; End_ := 2; IncludeStart := true; IncludeEnd := true |},
     Some NumRangeMalformed).
Proof.
  destruct (ParseNumRangeFromString_hyphen_pair "1" "2" eq_refl eq_refl)
    as (_ & H & _).
  apply (H 1%Z 2%Z); reflexivity.
Defined.

Lemma ParseNumRangeFromString_success_witness :
  ParseNumRangeFromString "42" = (NewSingleNumRange 42, None)
  ∧ string_count "-" "42" = 0.
Proof.
  split.
  - apply (ParseNumRangeFromString_success "42" (NewSingleNumRange 42)).
    split; [reflexivity|]. exists 42%Z. split; reflexivity.
  - apply (ParseNumRangeFromString_success "42" (NewSingleNumRange 42)).
    reflexivity.
Defined.

Lemma ParseUrn_success_witness :
  ∃ scheme, ToLower Sample.lowerNonASCII scheme = "urn"
            ∧ "URN:btih:abc" = scheme +:+ ":" +:+ "btih" +:+ ":" +:+ "abc".
Proof.
  destruct (ParseUrn_success Sample.lowerNonASCII "URN:btih:abc"
              {| Nid := "btih"; Nss := "abc" |} eq_refl)
    as (_ & _ & scheme & H1 & _ & H2 & _).
  exists scheme. split; [exact H1|exact H2].
Defined.

Lemma ParseUrn_String_colon_witness :
  ParseUrn Sample.lowerNonASCII (Urn_String {| Nid := "a:b"; Nss := "c" |})
  = (zeroUrn, Some (ErrMalformedUrn UrnBare)).
Proof. apply ParseUrn_String_colon. simpl. lia. Defined.

Lemma checkIsMagnetLinkXTParameter_spec_witness :
  checkIsMagnetLinkXTParameter ("xt." +:+ strconv.Itoa 12) = true
  ∧ (checkIsMagnetLinkXTParameter "xt.+5" = true).
Proof.
  split.
  - apply (checkIsMagnetLinkXTParameter_spec "xt"). lia.
  - apply (checkIsMagnetLinkXTParameter_spec "xt.+5").
    right. exists "+5". split; reflexivity.
Defined.

Lemma xt_prefix_unknown_witness :
  (∃ e, ParseMagnetLink Sample.lowerNonASCII Sample.rangeOrder
          "magnet:?xt.abc=urn:btih:0123"
          [Some (WithMagnetLinkParseStrictOption true)] = Fail e
        ∧ wraps e = ErrMalformedMagnetLink)
  ∧ ∃ pre post,
      Unknowns (appendUnknowns zeroMagnetLink "xt.abc" ["urn:btih:0123"]) !! "xt.abc"
      = Some (pre ++ ["urn:btih:0123"] ++ post).
Proof.
  split.
  - apply (xt_prefix_unknown Sample.lowerNonASCII Sample.rangeOrder
             Sample_rangeOrder_perm "magnet:?xt.abc=urn:btih:0123"
             [Some (WithMagnetLinkParseStrictOption true)]
             {| url.Scheme := "magnet"; url.RawQuery := "xt.abc=urn:btih:0123" |}
             "xt.abc" ["urn:btih:0123"]); reflexivity.
  - apply (xt_prefix_unknown Sample.lowerNonASCII Sample.rangeOrder
             Sample_rangeOrder_perm "magnet:?XT.abc=urn:btih:0123" []
             {| url.Scheme := "magnet"; url.RawQuery := "XT.abc=urn:btih:0123" |}
             "XT.abc" ["urn:btih:0123"]
             eq_refl eq_refl eq_refl eq_refl eq_refl).
    vm_compute. reflexivity.
Defined.

Lemma AsTorrent_success_witness :
  MagnetLink_ sampleTorrent = sampleLink [{| Nid := "btih"; Nss := sampleHash |}]
  ∧ length (InfoHashs sampleTorrent)
    = length (List.filter (isBtih Sample.lowerNonASCII)
                (Xt (sampleLink [{| Nid := "btih"; Nss := sampleHash |}])))
  ∧ Forall (λ h, Type_ h = HashSHA1 ∨ Type_ h = HashSHA256) (InfoHashs sampleTorrent).
Proof.
  apply (AsTorrent_success Sample.lowerNonASCII Sample.base32DecodeString).
  reflexivity.
Defined.

Lemma AsTorrent_hex_sizes_witness :
  Forall2 (λ xt h,
             (String.length (Nss xt) = 40%nat →
              Type_ h = HashSHA1 ∧ length (Value h) = 20%nat
              ∧ string_forallb url.ishex (Nss xt) = true)
             ∧ (String.length (Nss xt) = 64%nat →
                Type_ h = HashSHA256 ∧ length (Value h) = 32%nat
                ∧ string_forallb url.ishex (Nss xt) = true))
          (List.filter (isBtih Sample.lowerNonASCII)
             (Xt (sampleLink [{| Nid := "btih"; Nss := sampleHash |}])))
          (InfoHashs sampleTorrent).
Proof.
  apply (AsTorrent_hex_sizes Sample.lowerNonASCII Sample.base32DecodeString).
  reflexivity.
Defined.

Lemma AsTorrent_bad_hex_witness :
  ∃ e, AsTorrent Sample.lowerNonASCII Sample.base32DecodeString
         (sampleLink [{| Nid := "sha1"; Nss := "x" |};
                      {| Nid := "btih";
                         Nss := "g123456789ABCDEF0123456789ABCDEF01234567" |}])
       = Fail e
       ∧ wraps e = ErrMalformedMagnetLink.
Proof.
  apply (AsTorrent_bad_hex Sample.lowerNonASCII Sample.base32DecodeString _
           {| Nid := "btih"; Nss := "g123456789ABCDEF0123456789ABCDEF01234567" |}).
  - apply list_elem_of_further, list_elem_of_here.
  - reflexivity.
  - left. reflexivity.
  - reflexivity.
Defined.

Lemma AsTorrent_failure_kind_witness :
  Forall (λ xt, isBtih Sample.lowerNonASCII xt = false)
         (Xt (sampleLink [{| Nid := "sha1"; Nss := sampleHash |}])).
Proof.
  apply (AsTorrent_failure_kind Sample.lowerNonASCII Sample.base32DecodeString
           (sampleLink [{| Nid := "sha1"; Nss := sampleHash |}])
           {| wraps := ErrWrongMagnetLinkType; reason := NoTorrent |});
    reflexivity.
Defined.

Lemma ParseMagnetLink_failure_witness :
  ∃ u, url.Parse Sample.lowerNonASCII "http://example.com" = Ok u
       ∧ ToLower Sample.lowerNonASCII (url.Scheme u) ≠ "magnet".
Proof.
  apply (ParseMagnetLink_failure Sample.lowerNonASCII Sample.rangeOrder
           "http://example.com" [] (malformed InvalidScheme)).
  reflexivity.
Defined.

Lemma ParseTorrentMagnetLink_failure_witness :
  ∃ l, ParseMagnetLink Sample.lowerNonASCII Sample.rangeOrder "magnet:?dn=Test" []
       = Ok l
       ∧ Forall (λ xt, isBtih Sample.lowerNonASCII xt = false) (Xt l).
Proof.
  apply (ParseTorrentMagnetLink_failure Sample.lowerNonASCII
           Sample.base32DecodeString Sample.rangeOrder "magnet:?dn=Test" []
           {| wraps := ErrWrongMagnetLinkType; reason := NoTorrent |});
    reflexivity.
Defined.

Lemma ParseMagnetLink_verbatim_witness :
  ∃ pre post, Dn (appendDn zeroMagnetLink ["Test"]) = pre ++ ["Test"] ++ post.
Proof.
  apply (ParseMagnetLink_verbatim Sample.lowerNonASCII Sample.rangeOrder
           Sample_rangeOrder_perm "magnet:?DN=Test" []
           {| url.Scheme := "magnet"; url.RawQuery := "DN=Test" |}
           "DN" ["Test"] (appendDn zeroMagnetLink ["Test"]));
    reflexivity.
Defined.

Lemma ParseMagnetLink_exact_topics_witness :
  ∃ urns pre post,
    Forall2 (λ v urn, ParseUrn Sample.lowerNonASCII v = (urn, None))
            ["urn:btih:abc"] urns
    ∧ Xt (sampleLink [{| Nid := "btih"; Nss := "abc" |}]) = pre ++ urns ++ post.
Proof.
  apply (ParseMagnetLink_exact_topics Sample.lowerNonASCII Sample.rangeOrder
           Sample_rangeOrder_perm "magnet:?xt.1=urn:btih:abc" []
           {| url.Scheme := "magnet"; url.RawQuery := "xt.1=urn:btih:abc" |}
           "xt.1" ["urn:btih:abc"]);
    reflexivity.
Defined.

Lemma ParseMagnetLink_exact_lengths_witness :
  ∃ e, ParseMagnetLink Sample.lowerNonASCII Sample.rangeOrder "magnet:?xl=10&xl=ten" []
       = Fail e
       ∧ wraps e = ErrMalformedMagnetLink.
Proof.
  apply (ParseMagnetLink_exact_lengths Sample.lowerNonASCII Sample.rangeOrder
           Sample_rangeOrder_perm "magnet:?xl=10&xl=ten" []
           {| url.Scheme := "magnet"; url.RawQuery := "xl=10&xl=ten" |}
           "xl" ["10"; "ten"]) with (v := "ten");
    [reflexivity..| |discriminate].
  apply list_elem_of_further, list_elem_of_here.
Defined.

Lemma ParseMagnetLink_acceptable_sources_witness :
  ∃ decoded pre post,
    Forall2 (λ v d, url.QueryUnescape v = Ok d) ["a%41"] decoded
    ∧ As (appendAs zeroMagnetLink ["aA"]) = pre ++ decoded ++ post.
Proof.
  apply (ParseMagnetLink_acceptable_sources Sample.lowerNonASCII Sample.rangeOrder
           Sample_rangeOrder_perm "magnet:?as=a%2541" []
           {| url.Scheme := "magnet"; url.RawQuery := "as=a%2541" |}
           "as" ["a%41"]);
    reflexivity.
Defined.

Lemma ParseMagnetLink_experimental_witness :
  (∃ pre post,
     Exps (appendExps zeroMagnetLink "pe" ["1.2.3.4"]) !! "pe"
     = Some (pre ++ ["1.2.3.4"] ++ post))
  ∧ (∃ e, ParseMagnetLink Sample.lowerNonASCII Sample.rangeOrder "magnet:?x.=1" []
          = Fail e
          ∧ wraps e = ErrMalformedMagnetLink).
Proof.
  split.
  - apply (ParseMagnetLink_experimental Sample.lowerNonASCII Sample.rangeOrder
             Sample_rangeOrder_perm "magnet:?X.pe=1.2.3.4" []
             {| url.Scheme := "magnet"; url.RawQuery := "X.pe=1.2.3.4" |}
             "X.pe" "pe" ["1.2.3.4"]);
      [reflexivity..|discriminate|reflexivity].
  - apply (ParseMagnetLink_experimental Sample.lowerNonASCII Sample.rangeOrder
             Sample_rangeOrder_perm "magnet:?x.=1" []
             {| url.Scheme := "magnet"; url.RawQuery := "x.=1" |}
             "x." EmptyString ["1"]);
      reflexivity.
Defined.

Lemma ParseMagnetLink_select_only_single_witness :
  Forall isSinglePoint
         (So (appendSo zeroMagnetLink [NewSingleNumRange 1; NewSingleNumRange 3])).
Proof.
  apply (ParseMagnetLink_select_only_single Sample.lowerNonASCII Sample.rangeOrder
           "magnet:?so=1,3" []).
  reflexivity.
Defined.

Lemma ParseMagnetLink_select_only_hyphen_witness :
  ∃ e, ParseMagnetLink Sample.lowerNonASCII Sample.rangeOrder "magnet:?so=0,2-4" []
       = Fail e
       ∧ wraps e = ErrMalformedMagnetLink.
Proof.
  apply (ParseMagnetLink_select_only_hyphen Sample.lowerNonASCII Sample.rangeOrder
           Sample_rangeOrder_perm "magnet:?so=0,2-4" []
           {| url.Scheme := "magnet"; url.RawQuery := "so=0,2-4" |}
           "so" ["0,2-4"] "0,2-4");
    [reflexivity..|apply list_elem_of_here|simpl; lia].
Defined.


Lemma ParseMagnetLink_strict_success_witness :
  Unknowns (appendDn zeroMagnetLink ["a"; "b"]) = ∅
  ∧ ParseMagnetLink Sample.lowerNonASCII Sample.rangeOrder "magnet:?dn=a&DN=b" []
    = Ok (appendDn zeroMagnetLink ["a"; "b"])
  ∧ ∃ l', ParseMagnetLink Sample.lowerNonASCII reversedOrder "magnet:?dn=a&DN=b" []
          = Ok l'
          ∧ Unknowns l' = ∅.
Proof.
  apply (ParseMagnetLink_strict_success Sample.lowerNonASCII
           Sample.rangeOrder reversedOrder "magnet:?dn=a&DN=b"
           [Some (WithMagnetLinkParseStrictOption true)] []
           (appendDn zeroMagnetLink ["a"; "b"])
           Sample_rangeOrder_perm reversedOrder_perm).
  - reflexivity.
  - vm_compute. reflexivity.
Defined.

Lemma applyOptions_last_witness :
  applyOptions [Some (WithMagnetLinkParseStrictOption false); None;
                Some (WithMagnetLinkParseStrictOption true); None]
  = {| Strict := true |}.
Proof.
  apply (applyOptions_last [Some (WithMagnetLinkParseStrictOption false); None]
           [None] true).
  repeat constructor.
Defined.

Lemma ParseMagnetLink_order_independent_witness :
  ∃ l, ParseMagnetLink Sample.lowerNonASCII reversedOrder
         "magnet:?dn=a&tr=b&xt=urn:btih:c" [] = Ok l.
Proof.
  apply (ParseMagnetLink_order_independent Sample.lowerNonASCII
           Sample.rangeOrder reversedOrder _ _
           Sample_rangeOrder_perm reversedOrder_perm).
  eexists. vm_compute. reflexivity.
Defined.

Lemma ParseMagnetLink_exact_topics_origin_witness :
  ∃ key values v,
    url.Query {| url.Scheme := "magnet"; url.RawQuery := "XT=urn:btih:abc" |} !! key
    = Some values
    ∧ checkIsMagnetLinkXTParameter (ToLower Sample.lowerNonASCII key) = true
    ∧ v ∈ values
    ∧ ParseUrn Sample.lowerNonASCII v = ({| Nid := "btih"; Nss := "abc" |}, None).
Proof.
  apply (ParseMagnetLink_exact_topics_origin Sample.lowerNonASCII Sample.rangeOrder
           Sample_rangeOrder_perm "magnet:?XT=urn:btih:abc" []
           {| url.Scheme := "magnet"; url.RawQuery := "XT=urn:btih:abc" |}
           (sampleLink [{| Nid := "btih"; Nss := "abc" |}]));
    [reflexivity..|apply list_elem_of_here].
Defined.

Lemma ParseTorrentMagnetLink_success_witness :
  ParseMagnetLink Sample.lowerNonASCII Sample.rangeOrder
    "magnet:?xt=urn:btih:0123456789ABCDEF0123456789ABCDEF01234567" []
  = Ok (MagnetLink_ sampleTorrent)
  ∧ InfoHashs sampleTorrent ≠ []
  ∧ length (InfoHashs sampleTorrent)
    = length (List.filter (isBtih Sample.lowerNonASCII)
                (Xt (MagnetLink_ sampleTorrent))).
Proof.
  apply (ParseTorrentMagnetLink_success Sample.lowerNonASCII
           Sample.base32DecodeString Sample.rangeOrder).
  vm_compute. reflexivity.
Defined.
